(** * Speech-Corpus-Khowar: silence-based chunking (main.py / utils.py)

    A shallow embedding of [split_by_silence_and_chunk], [process_csv],
    [download_audio] and [convert_to_wav].

    Modelling decisions, all stated once here.
    - Audio.  The loops read a segment only through [len(seg)], a number of
      milliseconds, slice it by milliseconds and append with [+].  For what
      the loops decide, an [AudioSegment] is the list of its one-millisecond
      frames.  Where the samples themselves matter (is a split lossless?) a
      segment is its frame rate and samples ([pcm]), with pydub's
      conversions between milliseconds and frames.
    - Numbers.  [min_chunk_s] and [max_chunk_s] are Python floats.  Where a
      result depends on the configuration only through the outcome of the
      loops' tests and an integer step (the walk of Phase A, termination,
      running a phase again), the configuration is read as exact rationals
      ([config]).  Where the value of [int(max_chunk_s * 1000)] or of a
      comparison at given numbers matters, it is read in binary64
      ([float_config]), and [int] raises as in Python.
    - Python [while] loops are run with fuel; a loop that is still running
      when the fuel is used up yields [OutOfFuel].  The [for] loop over the
      (unmodified) list [final_chunks] is structural recursion. *)

From Stdlib Require Import String List ZArith QArith Lia Bool Arith.
From Stdlib Require Import Ascii Decimal DecimalNat DecimalString.
From Stdlib Require Import PrimFloat FloatOps SpecFloat.
From Stdlib Require Uint63.
Import ListNotations.

Set Implicit Arguments.
Set Warnings "-inexact-float".
Local Open Scope Z_scope.

(** ** Outcomes of running Python code *)

(** The two names of the specification's error taxonomy are listed next to
    the exceptions the embedded statements can raise: [IndexError] of
    [chunks[i]] out of range; [OverflowError] and [ValueError]
    ([IntValueError]) of [int] and [round] on an infinity and on NaN;
    [ZeroDivisionError]; pydub's [TooManyMissingFrames]; and an exception
    raised inside a library call ([LibraryError]). *)
Inductive error : Type :=
| IndexError
| EmptyInputError
| InvalidConfigError
| OverflowError
| IntValueError
| ZeroDivisionError
| TooManyMissingFrames
| LibraryError (msg : string).

Inductive outcome (A : Type) : Type :=
| Returned (a : A)
| Raised (e : error)
| OutOfFuel.

Arguments Returned {A} a.
Arguments Raised {A} e.
Arguments OutOfFuel {A}.

Definition bind {A B : Type} (m : outcome A) (k : A -> outcome B) : outcome B :=
  match m with
  | Returned a => k a
  | Raised e => Raised e
  | OutOfFuel => OutOfFuel
  end.

Notation "x <- m ;; k" := (bind m (fun x => k))
  (at level 61, m at next level, right associativity).

(** ** Audio segments at millisecond resolution *)

(** The PCM content of one millisecond of audio. *)
Definition frame : Type := Z.

Definition AudioSegment : Type := list frame.

(** [len(seg)]: duration in milliseconds. *)
Definition len (c : AudioSegment) : Z := Z.of_nat (length c).

(** [chunks[i]] *)
Definition getitem (chunks : list AudioSegment) (i : nat) : outcome AudioSegment :=
  match nth_error chunks i with
  | Some c => Returned c
  | None => Raised IndexError
  end.

(** pydub's [_parse_position]: a negative position counts from the end. *)
Definition parse_position (c : AudioSegment) (val : Z) : Z :=
  if val <? 0 then len c - Z.abs val else val.

(** Python's normalisation of one bound of [data[s:e]]. *)
Definition py_bound (n i : Z) : Z :=
  if i <? 0 then Z.max (i + n) 0 else Z.min i n.

(** [c[start:stop]] as pydub's [__getitem__] computes it for a slice without
    step: both bounds are capped by [len(c)], parsed, and the data sliced. *)
Definition getslice (c : AudioSegment) (start stop : Z) : AudioSegment :=
  let start := Z.min start (len c) in
  let stop := Z.min stop (len c) in
  let s := py_bound (len c) (parse_position c start) in
  let e := py_bound (len c) (parse_position c stop) in
  firstn (Z.to_nat (e - s)) (skipn (Z.to_nat s) c).

(** ** Configuration *)

Record config : Type := {
  min_chunk_s : Q;
  max_chunk_s : Q
}.

(** [len(c) / 1000.0] *)
Definition dur_s (c : AudioSegment) : Q := (inject_Z (len c) / inject_Z 1000)%Q.

Definition Qlt_bool (x y : Q) : bool := negb (Qle_bool y x).

(** [int(x)]: truncation toward zero. *)
Definition py_int (x : Q) : Z := Z.quot (Qnum x) (Z.pos (Qden x)).

(** [max_ms = int(max_chunk_s * 1000)] *)
Definition max_ms (cfg : config) : Z := py_int (max_chunk_s cfg * inject_Z 1000)%Q.

(** ** Phase A: merge small chunks with the next ones *)

(** The inner loop
    [while j < len(chunks) and (len(merged)/1000.0) < min_chunk_s]. *)
Fixpoint merge_loop (cfg : config) (fuel : nat) (chunks : list AudioSegment)
    (j : nat) (merged : AudioSegment) : outcome (nat * AudioSegment) :=
  match fuel with
  | O => OutOfFuel
  | S fuel' =>
      if (j <? length chunks)%nat && Qlt_bool (dur_s merged) (min_chunk_s cfg) then
        c <- getitem chunks j ;;
        merge_loop cfg fuel' chunks (S j) (merged ++ c)
      else Returned (j, merged)
  end.

(** The outer loop [while i < len(chunks)]. *)
Fixpoint merge_forward (cfg : config) (fuel : nat) (chunks : list AudioSegment)
    (i : nat) (final_chunks : list AudioSegment) : outcome (list AudioSegment) :=
  match fuel with
  | O => OutOfFuel
  | S fuel' =>
      if (i <? length chunks)%nat then
        current <- getitem chunks i ;;
        if Qle_bool (min_chunk_s cfg) (dur_s current) then
          merge_forward cfg fuel' chunks (S i) (final_chunks ++ [current])
        else
          jm <- merge_loop cfg fuel' chunks (S i) current ;;
          merge_forward cfg fuel' chunks (fst jm) (final_chunks ++ [snd jm])
      else Returned final_chunks
  end.

(** Lines 40-57: [final_chunks = []; i = 0; while ...]. *)
Definition phase_a (cfg : config) (fuel : nat) (chunks : list AudioSegment)
  : outcome (list AudioSegment) :=
  merge_forward cfg fuel chunks 0 [].

(** ** Phase B: split chunks longer than [max_ms] *)

(** The loop [while start < len(c)]. *)
Fixpoint slice_loop (cfg : config) (fuel : nat) (c : AudioSegment)
    (start : Z) (processed : list AudioSegment) : outcome (list AudioSegment) :=
  match fuel with
  | O => OutOfFuel
  | S fuel' =>
      if start <? len c then
        let piece := getslice c start (start + max_ms cfg) in
        slice_loop cfg fuel' c (start + max_ms cfg) (processed ++ [piece])
      else Returned processed
  end.

(** The loop [for c in final_chunks]. *)
Fixpoint split_oversized (cfg : config) (fuel : nat)
    (final_chunks : list AudioSegment) (processed : list AudioSegment)
  : outcome (list AudioSegment) :=
  match final_chunks with
  | [] => Returned processed
  | c :: rest =>
      if len c <=? max_ms cfg then
        split_oversized cfg fuel rest (processed ++ [c])
      else
        processed' <- slice_loop cfg fuel c 0 processed ;;
        split_oversized cfg fuel rest processed'
  end.

(** Lines 59-70: [processed = []; for c in final_chunks: ...]. *)
Definition phase_b (cfg : config) (fuel : nat) (final_chunks : list AudioSegment)
  : outcome (list AudioSegment) :=
  split_oversized cfg fuel final_chunks [].

(** Lines 40-70: the two phases in sequence. *)
Definition normalize (cfg : config) (fuel : nat) (chunks : list AudioSegment)
  : outcome (list AudioSegment) :=
  final_chunks <- phase_a cfg fuel chunks ;;
  phase_b cfg fuel final_chunks.

(** ** The whole function *)

(** [enumerate(processed, start=1)]: each exported file is identified by its
    index and holds its chunk. *)
Fixpoint enumerate (A : Type) (start : nat) (l : list A) : list (nat * A) :=
  match l with
  | [] => []
  | x :: l' => (start, x) :: enumerate (S start) l'
  end.

(** [split_by_silence_and_chunk]; pydub's [silence.split_on_silence], with the
    threshold and padding arguments it is called with, is the parameter
    [split_on_silence]. *)
Definition split_by_silence_and_chunk
    (split_on_silence : AudioSegment -> list AudioSegment)
    (cfg : config) (fuel : nat) (audio : AudioSegment)
  : outcome (list (nat * AudioSegment)) :=
  let raw_chunks := split_on_silence audio in
  let chunks := filter (fun c => 0 <? len c) raw_chunks in
  processed <- normalize cfg fuel chunks ;;
  Returned (enumerate 1 processed).

(** Default arguments: [min_chunk_s = 3.0], [max_chunk_s = 8.0]. *)
Definition default_config : config := {| min_chunk_s := 3%Q; max_chunk_s := 8%Q |}.

(** A segment of [n] milliseconds, every frame holding [v]. *)
Definition tone (v : frame) (ms : Z) : AudioSegment := repeat v (Z.to_nat ms).

(** ** The merge-forward policy as the specification words it *)

(** Growing an accumulator: subsequent segments are appended until the
    accumulated duration reaches [min_chunk_s] or the input is exhausted.
    [Accumulated cfg acc rest m rest'] reads: starting from [acc] with [rest]
    still to come, the emitted chunk is [m] and the scan resumes at [rest']. *)
Inductive Accumulated (cfg : config)
  : AudioSegment -> list AudioSegment -> AudioSegment -> list AudioSegment -> Prop :=
| acc_stop acc rest :
    (min_chunk_s cfg <= dur_s acc)%Q \/ rest = [] ->
    Accumulated cfg acc rest acc rest
| acc_append acc s rest m rest' :
    (dur_s acc < min_chunk_s cfg)%Q ->
    Accumulated cfg (acc ++ s) rest m rest' ->
    Accumulated cfg acc (s :: rest) m rest'.

(** The left-to-right walk: a segment that meets the minimum is emitted as it
    is, an undersized one starts an accumulator. *)
Inductive MergeForward (cfg : config)
  : list AudioSegment -> list AudioSegment -> Prop :=
| mf_done : MergeForward cfg [] []
| mf_emit s rest out :
    (min_chunk_s cfg <= dur_s s)%Q ->
    MergeForward cfg rest out ->
    MergeForward cfg (s :: rest) (s :: out)
| mf_merge s rest m rest' out :
    (dur_s s < min_chunk_s cfg)%Q ->
    Accumulated cfg s rest m rest' ->
    MergeForward cfg rest' out ->
    MergeForward cfg (s :: rest) (m :: out).

(** ** The split-oversized policy as the specification words it *)

(** [SplitOf step c ps]: [ps] are the pieces of chunk [c] for a piece length
    of [step] milliseconds.  A chunk of at most [step] is kept whole; a longer
    one is cut into consecutive pieces of exactly [step], the last one holding
    the remainder. *)
Inductive SplitOf (step : Z) (c : AudioSegment) : list AudioSegment -> Prop :=
| split_whole : len c <= step -> SplitOf step c [c]
| split_pieces init last :
    step < len c ->
    Forall (fun p => len p = step) init ->
    0 < len last <= step ->
    concat (init ++ [last]) = c ->
    SplitOf step c (init ++ [last]).

(** What the slicing loop appends for the part [r] of the chunk that is
    still ahead of [start]: nothing when nothing is left, otherwise full
    pieces followed by a last piece holding the remainder. *)
Definition Pieces (step : Z) (r : AudioSegment) (ps : list AudioSegment) : Prop :=
  concat ps = r /\
  ((r = [] /\ ps = []) \/
   (exists init last,
       ps = init ++ [last] /\
       Forall (fun p => len p = step) init /\
       0 < len last <= step)).

(** Fuel that is enough for both phases. *)
Definition enough_fuel (chunks : list AudioSegment) : nat :=
  S (length chunks + length (concat chunks)).

(** The whole waveform as a single raw segment: what the splitter yields
    when it finds no silence. *)
Definition whole_waveform (audio : AudioSegment) : list AudioSegment := [audio].

(** ** The batch driver *)

(** What the driver relies on and this repository does not define: the state
    of the outside world (network, file system), the exceptions of class
    [Exception] that a failing download, conversion or segmentation raises,
    and the operations on paths.  [segment_wav] is
    [split_by_silence_and_chunk] as the driver calls it, on a path, with the
    options of the command line: it reads the WAV file, writes the chunks and
    returns their paths. *)
Record externals (World exn : Type) : Type := {
  download_audio : string -> string -> World -> (string + exn) * World;
  convert_to_wav : string -> string -> World -> (string + exn) * World;
  segment_wav : string -> string -> World -> (list string + exn) * World;
  path_exists : string -> World -> bool;
  path_join : string -> string -> string;
  splitext_root : string -> string;
  path_stem : string -> string
}.

(** The lines the driver prints. *)
Inductive line (exn : Type) : Type :=
| Processing (url : string)
| Exported (n : nat) (out_dir : string)
| ErrorFor (url : string) (e : exn).

Arguments Processing {exn} url.
Arguments Exported {exn} n out_dir.
Arguments ErrorFor {exn} url e.

(** A data frame: its columns by name; [None] is a missing cell (NaN). *)
Definition dataframe : Type := list (string * list (option string)).

Fixpoint get_column (name : string) (df : dataframe) : option (list (option string)) :=
  match df with
  | [] => None
  | (n, cells) :: df' => if String.eqb n name then Some cells else get_column name df'
  end.

(** [.dropna()] *)
Fixpoint dropna (cells : list (option string)) : list string :=
  match cells with
  | [] => []
  | Some u :: cells' => u :: dropna cells'
  | None :: cells' => dropna cells'
  end.

(** [.unique()]: the distinct values in order of first appearance. *)
Fixpoint unique (l : list string) : list string :=
  match l with
  | [] => []
  | u :: l' => u :: filter (fun v => negb (String.eqb u v)) (unique l')
  end.

Section Driver.
Variables World exn : Type.
Variable X : externals World exn.
Variables tmp_dir out_root : string.

(** The statements of the [try] block after the first [print], up to the
    values the last [print] shows. *)
Definition try_body (url : string) (w : World) : (nat * string + exn) * World :=
  let download_folder := path_join X tmp_dir "downloads" in
  match download_audio X url download_folder w with
  | (inr e, w1) => (inr e, w1)
  | (inl downloaded, w1) =>
      let wav_out := (splitext_root X downloaded ++ ".wav")%string in
      match (if path_exists X wav_out w1
             then (inl wav_out, w1)
             else convert_to_wav X downloaded wav_out w1) with
      | (inr e, w2) => (inr e, w2)
      | (inl wav_out, w2) =>
          let safe_name := path_stem X wav_out in
          let out_dir := path_join X out_root safe_name in
          match segment_wav X wav_out out_dir w2 with
          | (inr e, w3) => (inr e, w3)
          | (inl exported, w3) => (inl (length exported, out_dir), w3)
          end
      end
  end.

(** One iteration of [for url in ...]: the [try] block and its
    [except Exception as e] handler.  The state is the world and what has
    been printed so far. *)
Definition process_url (url : string) (st : World * list (line exn))
  : World * list (line exn) :=
  let (w, printed) := st in
  let printed := printed ++ [Processing url] in
  match try_body url w with
  | (inl (n, out_dir), w') => (w', printed ++ [Exported n out_dir])
  | (inr e, w') => (w', printed ++ [ErrorFor url e])
  end.

Fixpoint for_urls (urls : list string) (st : World * list (line exn))
  : World * list (line exn) :=
  match urls with
  | [] => st
  | url :: urls' => for_urls urls' (process_url url st)
  end.

(** [process_csv] on the data frame read from the CSV file: [None] is the
    [ValueError] raised when there is no [url] column. *)
Definition process_csv (df : dataframe) (w : World)
  : option (World * list (line exn)) :=
  match get_column "url" df with
  | None => None
  | Some cells => Some (for_urls (unique (dropna cells)) (w, []))
  end.
End Driver.

(** A line that reports the outcome of [url]: the count of exported chunks,
    or the error of that very [url]. *)
Definition reports (exn : Type) (url : string) (r : line exn) : Prop :=
  match r with
  | Processing _ => False
  | Exported _ _ => True
  | ErrorFor url' _ => url' = url
  end.

(** A small world for trying the driver: the state counts the calls made, the
    download of the address [bad] fails, a WAV file never exists beforehand
    and every WAV file yields two chunks. *)
Definition demo_externals : externals nat string := {|
  download_audio := fun url dir w =>
    if String.eqb url "bad" then (inr "download failed"%string, S w)
    else (inl (dir ++ "/" ++ url ++ ".m4a")%string, S w);
  convert_to_wav := fun _ output w => (inl output, S w);
  segment_wav := fun wav out_dir w =>
    (inl [(out_dir ++ "/chunk001.wav")%string; (out_dir ++ "/chunk002.wav")%string], S w);
  path_exists := fun _ _ => false;
  path_join := fun a b => (a ++ "/" ++ b)%string;
  splitext_root := fun path => path;
  path_stem := fun path => path
|}.

Definition demo_dataframe : dataframe :=
  [("url"%string, [Some "a"%string; None; Some "bad"%string; Some "a"%string;
                   Some "c"%string])].

(** ** Exporting the chunks *)

(** [str(n)] of a non-negative integer. *)
Definition str_of_nat (n : nat) : string :=
  NilEmpty.string_of_uint (Nat.to_uint n).

Fixpoint zeros (k : nat) : string :=
  match k with
  | O => EmptyString
  | S k' => String "0"%char (zeros k')
  end.

(** [f"{idx:03d}"]: the decimal digits, padded on the left with zeros up to
    three characters. *)
Definition format_03d (idx : nat) : string :=
  let digits := str_of_nat idx in
  (zeros (3 - String.length digits) ++ digits)%string.

(** [f"{basename}_chunk{idx:03d}.wav"] *)
Definition chunk_name (basename : string) (idx : nat) : string :=
  (basename ++ "_chunk" ++ format_03d idx ++ ".wav")%string.

(** Lines 76-79: the file written in [out_dir] for each enumerated chunk, by
    name and content, in the order of the loop. *)
Definition exported_files (basename : string) (exported : list (nat * AudioSegment))
  : list (string * AudioSegment) :=
  map (fun ic => (chunk_name basename (fst ic), snd ic)) exported.

(** Reading a decimal numeral back, as [int(s)] does for a string of digits. *)
Definition parse_nat (s : string) : option nat :=
  option_map Nat.of_uint (NilZero.uint_of_string s).

(** ** utils.py: downloading and converting *)

(** The exceptions the two helpers raise themselves, next to those raised
    inside the libraries and programs they call ([Other]). *)
Inductive py_exception (other : Type) : Type :=
| ValueError (msg : string)
| FileNotFoundError (msg : string)
| CalledProcessError (returncode : Z) (cmd : list string)
| Other (e : other).

Arguments ValueError {other} msg.
Arguments FileNotFoundError {other} msg.
Arguments CalledProcessError {other} returncode cmd.
Arguments Other {other} e.

(** What the helpers call and this repository does not define.
    [extract_info url outtmpl] is [YoutubeDL(ydl_opts).extract_info(url,
    download=True)] followed by [info.get('id')], with [outtmpl] the output
    template of [ydl_opts]; [None] is a missing id.  [run_process cmd] is
    [subprocess.run(cmd, ...)] up to the return code of the process. *)
Record system (World other : Type) : Type := {
  makedirs : string -> World -> (unit + other) * World;
  extract_info : string -> string -> World -> (option string + other) * World;
  run_process : list string -> World -> (Z + other) * World;
  os_path_exists : string -> World -> bool;
  os_path_join : string -> string -> string
}.

Section Utils.
Variables World other : Type.
Variable Sys : system World other.

(** [download_audio(url, out_dir)] *)
Definition download_audio_impl (url out_dir : string) (w : World)
  : (string + py_exception other) * World :=
  match makedirs Sys out_dir w with
  | (inr e, w1) => (inr (Other e), w1)
  | (inl _, w1) =>
      let outtmpl := os_path_join Sys out_dir "%(id)s.%(ext)s" in
      match extract_info Sys url outtmpl w1 with
      | (inr e, w2) => (inr (Other e), w2)
      | (inl video_id, w2) =>
          match video_id with
          | None | Some EmptyString =>
              (inr (ValueError "Could not get video ID"), w2)
          | Some id =>
              let file_path := os_path_join Sys out_dir (id ++ ".m4a")%string in
              if negb (os_path_exists Sys file_path w2) then
                (inr (FileNotFoundError
                        ("Downloaded file not found: " ++ file_path)%string), w2)
              else (inl file_path, w2)
          end
      end
  end.

(** The command line of [convert_to_wav]. *)
Definition ffmpeg_cmd (input_path output_path : string) : list string :=
  ["ffmpeg"; "-y"; "-i"; input_path; "-ar"; "16000"; "-ac"; "1"; output_path]%string.

(** [convert_to_wav(input_path, output_path)]; with [check=True] a return
    code other than zero raises [CalledProcessError]. *)
Definition convert_to_wav_impl (input_path output_path : string) (w : World)
  : (string + py_exception other) * World :=
  let cmd := ffmpeg_cmd input_path output_path in
  match run_process Sys cmd w with
  | (inr e, w1) => (inr (Other e), w1)
  | (inl returncode, w1) =>
      if returncode =? 0 then (inl output_path, w1)
      else (inr (CalledProcessError returncode cmd), w1)
  end.
End Utils.

(** The driver's collaborators with the two helpers of utils.py in place. *)
Definition with_utils (World other : Type) (Sys : system World other)
    (segment : string -> string -> World
               -> (list string + py_exception other) * World)
    (splitext stem : string -> string)
  : externals World (py_exception other) := {|
  download_audio := download_audio_impl Sys;
  convert_to_wav := convert_to_wav_impl Sys;
  segment_wav := segment;
  path_exists := os_path_exists Sys;
  path_join := os_path_join Sys;
  splitext_root := splitext;
  path_stem := stem
|}.

(** The same collaborators with another conversion. *)
Definition with_convert (World exn : Type) (X : externals World exn)
    (convert : string -> string -> World -> (string + exn) * World)
  : externals World exn := {|
  download_audio := download_audio X;
  convert_to_wav := convert;
  segment_wav := segment_wav X;
  path_exists := path_exists X;
  path_join := path_join X;
  splitext_root := splitext_root X;
  path_stem := path_stem X
|}.

(** The addresses the driver announced, read off what it printed. *)
Fixpoint attempted (exn : Type) (printed : list (line exn)) : list string :=
  match printed with
  | [] => []
  | Processing url :: printed' => url :: attempted printed'
  | _ :: printed' => attempted printed'
  end.

(** A small system for trying the helpers: the state counts the calls made,
    the extractor knows the id of one address only, every file exists and
    [ffmpeg] succeeds. *)
Definition demo_system : system nat string := {|
  makedirs := fun _ w => (inl tt, S w);
  extract_info := fun url _ w =>
    (inl (if String.eqb url "https://youtu.be/abc" then Some "abc"%string else None),
     S w);
  run_process := fun _ w => (inl 0, S w);
  os_path_exists := fun _ _ => true;
  os_path_join := fun a b => (a ++ "/" ++ b)%string
|}.

(** The same system where only the downloaded file exists and [ffmpeg] ends
    with return code 1. *)
Definition failing_system : system nat string := {|
  makedirs := makedirs demo_system;
  extract_info := extract_info demo_system;
  run_process := fun _ w => (inl 1, S w);
  os_path_exists := fun path _ => String.eqb path "tmp/downloads/abc.m4a";
  os_path_join := os_path_join demo_system
|}.

(** ** Python's numbers in binary64 *)

(** [float(n)] of an integer, exact below 2^53 in absolute value, which
    covers every length and position in milliseconds or in frames. *)
Definition float_of_Z (z : Z) : float :=
  if z <? 0 then PrimFloat.opp (PrimFloat.of_uint63 (Uint63.of_Z (- z)))
  else PrimFloat.of_uint63 (Uint63.of_Z z).

(** [int(x)] of a float: truncation toward zero; [OverflowError] on an
    infinity, [ValueError] on NaN. *)
Definition int_of_float (x : float) : outcome Z :=
  match Prim2SF x with
  | S754_zero _ => Returned 0
  | S754_infinity _ => Raised OverflowError
  | S754_nan => Raised IntValueError
  | S754_finite s m e =>
      let magnitude := if 0 <=? e then Z.pos m * 2 ^ e else Z.pos m / 2 ^ (- e) in
      Returned (if s then - magnitude else magnitude)
  end.

(** [round(x)] of a float: the nearest integer, a tie going to the even one. *)
Definition round_of_float (x : float) : outcome Z :=
  match Prim2SF x with
  | S754_zero _ => Returned 0
  | S754_infinity _ => Raised OverflowError
  | S754_nan => Raised IntValueError
  | S754_finite s m e =>
      let magnitude :=
        if 0 <=? e then Z.pos m * 2 ^ e
        else
          let q := Z.pos m / 2 ^ (- e) in
          let r := Z.pos m mod 2 ^ (- e) in
          if (2 ^ (- e) <? 2 * r) || ((2 ^ (- e) =? 2 * r) && Z.odd q)
          then q + 1 else q in
      Returned (if s then - magnitude else magnitude)
  end.

(** ** The configuration in binary64 *)

(** [min_chunk_s] and [max_chunk_s] as the floats [argparse] hands over. *)
Record float_config : Type := {
  f_min_chunk_s : float;
  f_max_chunk_s : float
}.

(** [len(c) / 1000.0] *)
Definition f_dur_s (c : AudioSegment) : float :=
  PrimFloat.div (float_of_Z (len c)) 1000.

(** [dur_s >= min_chunk_s] *)
Definition f_meets_min (cfg : float_config) (c : AudioSegment) : bool :=
  PrimFloat.leb (f_min_chunk_s cfg) (f_dur_s c).

(** [(len(merged)/1000.0) < min_chunk_s] *)
Definition f_undersized (cfg : float_config) (c : AudioSegment) : bool :=
  PrimFloat.ltb (f_dur_s c) (f_min_chunk_s cfg).

(** [max_ms = int(max_chunk_s * 1000)] *)
Definition f_max_ms (cfg : float_config) : outcome Z :=
  int_of_float (PrimFloat.mul (f_max_chunk_s cfg) 1000).

(** The inner loop of Phase A, with the comparison in binary64. *)
Fixpoint f_merge_loop (cfg : float_config) (fuel : nat) (chunks : list AudioSegment)
    (j : nat) (merged : AudioSegment) : outcome (nat * AudioSegment) :=
  match fuel with
  | O => OutOfFuel
  | S fuel' =>
      if (j <? length chunks)%nat && f_undersized cfg merged then
        c <- getitem chunks j ;;
        f_merge_loop cfg fuel' chunks (S j) (merged ++ c)
      else Returned (j, merged)
  end.

(** The outer loop of Phase A. *)
Fixpoint f_merge_forward (cfg : float_config) (fuel : nat)
    (chunks : list AudioSegment) (i : nat) (final_chunks : list AudioSegment)
  : outcome (list AudioSegment) :=
  match fuel with
  | O => OutOfFuel
  | S fuel' =>
      if (i <? length chunks)%nat then
        current <- getitem chunks i ;;
        if f_meets_min cfg current then
          f_merge_forward cfg fuel' chunks (S i) (final_chunks ++ [current])
        else
          jm <- f_merge_loop cfg fuel' chunks (S i) current ;;
          f_merge_forward cfg fuel' chunks (fst jm) (final_chunks ++ [snd jm])
      else Returned final_chunks
  end.

(** Lines 40-57. *)
Definition f_phase_a (cfg : float_config) (fuel : nat) (chunks : list AudioSegment)
  : outcome (list AudioSegment) :=
  f_merge_forward cfg fuel chunks 0 [].

(** The loop [while start < len(c)], for the integer [max_ms]. *)
Fixpoint f_slice_loop (max_ms : Z) (fuel : nat) (c : AudioSegment)
    (start : Z) (processed : list AudioSegment) : outcome (list AudioSegment) :=
  match fuel with
  | O => OutOfFuel
  | S fuel' =>
      if start <? len c then
        let piece := getslice c start (start + max_ms) in
        f_slice_loop max_ms fuel' c (start + max_ms) (processed ++ [piece])
      else Returned processed
  end.

(** The loop [for c in final_chunks], for the integer [max_ms]. *)
Fixpoint f_split_oversized (max_ms : Z) (fuel : nat)
    (final_chunks : list AudioSegment) (processed : list AudioSegment)
  : outcome (list AudioSegment) :=
  match final_chunks with
  | [] => Returned processed
  | c :: rest =>
      if len c <=? max_ms then
        f_split_oversized max_ms fuel rest (processed ++ [c])
      else
        processed' <- f_slice_loop max_ms fuel c 0 processed ;;
        f_split_oversized max_ms fuel rest processed'
  end.

(** Lines 59-70: [processed = []], [max_ms = int(max_chunk_s * 1000)], and
    the loop. *)
Definition f_phase_b (cfg : float_config) (fuel : nat)
    (final_chunks : list AudioSegment) : outcome (list AudioSegment) :=
  max_ms <- f_max_ms cfg ;;
  f_split_oversized max_ms fuel final_chunks [].

(** Lines 40-70. *)
Definition f_normalize (cfg : float_config) (fuel : nat)
    (chunks : list AudioSegment) : outcome (list AudioSegment) :=
  final_chunks <- f_phase_a cfg fuel chunks ;;
  f_phase_b cfg fuel final_chunks.

(** The merge-forward walk with the tests of the loops. *)
Inductive FAccumulated (cfg : float_config)
  : AudioSegment -> list AudioSegment -> AudioSegment -> list AudioSegment -> Prop :=
| facc_stop acc rest :
    f_undersized cfg acc = false \/ rest = [] ->
    FAccumulated cfg acc rest acc rest
| facc_append acc s rest m rest' :
    f_undersized cfg acc = true ->
    FAccumulated cfg (acc ++ s) rest m rest' ->
    FAccumulated cfg acc (s :: rest) m rest'.

Inductive FMergeForward (cfg : float_config)
  : list AudioSegment -> list AudioSegment -> Prop :=
| fmf_done : FMergeForward cfg [] []
| fmf_emit s rest out :
    f_meets_min cfg s = true ->
    FMergeForward cfg rest out ->
    FMergeForward cfg (s :: rest) (s :: out)
| fmf_merge s rest m rest' out :
    f_meets_min cfg s = false ->
    FAccumulated cfg s rest m rest' ->
    FMergeForward cfg rest' out ->
    FMergeForward cfg (s :: rest) (m :: out).

(** Default arguments: [min_chunk_s = 3.0], [max_chunk_s = 8.0]. *)
Definition f_default_config : float_config :=
  {| f_min_chunk_s := 3; f_max_chunk_s := 8 |}.

(** ** The whole function with its library calls *)

(** What the function calls and this repository does not define, over a
    state of the file system.  [split_segments] is
    [silence.split_on_silence] with the threshold computed from
    [audio.dBFS] and the options of the call. *)
Record pydub_io (World : Type) : Type := {
  from_wav : string -> World -> (AudioSegment + string) * World;
  split_segments : AudioSegment -> list AudioSegment;
  io_makedirs : string -> World -> (unit + string) * World;
  export_wav : AudioSegment -> string -> World -> (unit + string) * World;
  io_join : string -> string -> string;
  io_stem : string -> string
}.

Section WholeFunction.
Variable World : Type.
Variable IO : pydub_io World.

(** Lines 75-79: the export loop. *)
Fixpoint export_loop (out_dir basename : string)
    (items : list (nat * AudioSegment)) (exported : list string) (w : World)
  : outcome (list string) * World :=
  match items with
  | [] => (Returned exported, w)
  | (idx, chunk) :: items' =>
      let out_path := io_join IO out_dir (chunk_name basename idx) in
      match export_wav IO chunk out_path w with
      | (inr e, w') => (Raised (LibraryError e), w')
      | (inl _, w') =>
          export_loop out_dir basename items' (exported ++ [out_path]) w'
      end
  end.

(** [split_by_silence_and_chunk(wav_path, out_dir, ...)], lines 26-80. *)
Definition f_split_by_silence_and_chunk (cfg : float_config) (fuel : nat)
    (wav_path out_dir : string) (w : World) : outcome (list string) * World :=
  match from_wav IO wav_path w with
  | (inr e, w1) => (Raised (LibraryError e), w1)
  | (inl audio, w1) =>
      let raw_chunks := split_segments IO audio in
      let chunks := filter (fun c => 0 <? len c) raw_chunks in
      match f_normalize cfg fuel chunks with
      | Raised e => (Raised e, w1)
      | OutOfFuel => (OutOfFuel, w1)
      | Returned processed =>
          match io_makedirs IO out_dir w1 with
          | (inr e, w2) => (Raised (LibraryError e), w2)
          | (inl _, w2) =>
              export_loop out_dir (io_stem IO wav_path)
                (enumerate 1 processed) [] w2
          end
      end
  end.
End WholeFunction.

(** A file system for trying the function: the state is the list of the
    files written, with their lengths in milliseconds; every WAV file read
    holds [audio], in which no silence is found. *)
Definition demo_io (audio : AudioSegment) : pydub_io (list (string * Z)) := {|
  from_wav := fun _ w => (inl audio, w);
  split_segments := whole_waveform;
  io_makedirs := fun _ w => (inl tt, w);
  export_wav := fun chunk path w => (inl tt, w ++ [(path, len chunk)]);
  io_join := fun a b => (a ++ "/" ++ b)%string;
  io_stem := fun _ => "talk"%string
|}.

(** ** Audio segments at the level of frames *)

(** A mono segment as pydub holds it: the frame rate of the file and its
    samples, one per frame. *)
Record pcm : Type := {
  frame_rate : Z;
  samples : list Z
}.

(** [frame_count()] *)
Definition frame_count (a : pcm) : Z := Z.of_nat (length (samples a)).

(** [len(seg)], pydub's [round(1000 * (self.frame_count() / self.frame_rate))]. *)
Definition pcm_len (a : pcm) : outcome Z :=
  if frame_rate a =? 0 then Raised ZeroDivisionError
  else round_of_float
         (PrimFloat.mul 1000
            (PrimFloat.div (float_of_Z (frame_count a)) (float_of_Z (frame_rate a)))).

(** [frame_count(ms=ms)], pydub's [ms * (self.frame_rate / 1000.0)]. *)
Definition frames_in (a : pcm) (ms : Z) : float :=
  PrimFloat.mul (float_of_Z ms) (PrimFloat.div (float_of_Z (frame_rate a)) 1000).

(** pydub's [_parse_position]: a negative position counts from the end, and
    the position in milliseconds becomes a whole number of frames. *)
Definition pcm_parse_position (a : pcm) (val : Z) : outcome Z :=
  val' <- (if val <? 0 then (L <- pcm_len a ;; Returned (L - Z.abs val))
           else Returned val) ;;
  int_of_float (frames_in a val').

(** Python's [data[s:e]]. *)
Definition py_slice (A : Type) (data : list A) (s e : Z) : list A :=
  let n := Z.of_nat (length data) in
  let s' := py_bound n s in
  let e' := py_bound n e in
  firstn (Z.to_nat (e' - s')) (skipn (Z.to_nat s') data).

(** [seg[start:stop]], pydub's [__getitem__] for a slice without step: the
    bounds are capped by [len(seg)] and turned into frames, the data is
    sliced, and frames that are missing at the end are filled with silence,
    unless more than two milliseconds are missing. *)
Definition pcm_getslice (a : pcm) (start stop : Z) : outcome pcm :=
  L <- pcm_len a ;;
  let start := Z.min start L in
  let stop := Z.min stop L in
  s <- pcm_parse_position a start ;;
  e <- pcm_parse_position a stop ;;
  let data := py_slice (samples a) s e in
  let expected_length := e - s in
  let missing_frames := expected_length - Z.of_nat (length data) in
  if missing_frames =? 0 then
    Returned {| frame_rate := frame_rate a; samples := data |}
  else if PrimFloat.ltb (frames_in a 2) (float_of_Z missing_frames) then
    Raised TooManyMissingFrames
  else
    let silence := match data with [] => [] | _ :: _ => [0] end in
    Returned {| frame_rate := frame_rate a;
                samples := data ++ concat (repeat silence (Z.to_nat missing_frames)) |}.

(** The loop [while start < len(c)] on frames. *)
Fixpoint pcm_slice_loop (max_ms : Z) (fuel : nat) (c : pcm)
    (start : Z) (processed : list pcm) : outcome (list pcm) :=
  match fuel with
  | O => OutOfFuel
  | S fuel' =>
      L <- pcm_len c ;;
      if start <? L then
        piece <- pcm_getslice c start (start + max_ms) ;;
        pcm_slice_loop max_ms fuel' c (start + max_ms) (processed ++ [piece])
      else Returned processed
  end.

(** The loop [for c in final_chunks] on frames. *)
Fixpoint pcm_split_oversized (max_ms : Z) (fuel : nat)
    (final_chunks : list pcm) (processed : list pcm) : outcome (list pcm) :=
  match final_chunks with
  | [] => Returned processed
  | c :: rest =>
      L <- pcm_len c ;;
      if L <=? max_ms then
        pcm_split_oversized max_ms fuel rest (processed ++ [c])
      else
        processed' <- pcm_slice_loop max_ms fuel c 0 processed ;;
        pcm_split_oversized max_ms fuel rest processed'
  end.

(** Lines 59-70 on frames. *)
Definition pcm_phase_b (cfg : float_config) (fuel : nat) (final_chunks : list pcm)
  : outcome (list pcm) :=
  max_ms <- f_max_ms cfg ;;
  pcm_split_oversized max_ms fuel final_chunks [].

(** A segment held at [k] frames per millisecond that is a whole number of
    milliseconds long, and on which the conversion of milliseconds into
    frames is exact: the case of 16 kHz audio cut at millisecond positions. *)
Definition whole_ms (k : Z) (c : pcm) : Prop :=
  1 <= k /\
  exists L,
    pcm_len c = Returned L /\
    frame_count c = k * L /\
    forall ms, 0 <= ms <= L -> int_of_float (frames_in c ms) = Returned (k * ms).

(** The numbers of frames of the segments a run returned. *)
Definition frame_counts (o : outcome (list pcm)) : outcome (list Z) :=
  l <- o ;; Returned (map frame_count l).

(** A segment of [n] frames at the given rate, every sample being [v]. *)
Definition pcm_tone (rate v n : Z) : pcm :=
  {| frame_rate := rate; samples := repeat v (Z.to_nat n) |}.

(** * Basic facts *)

Lemma len_nonneg (c : AudioSegment) : 0 <= len c.
Proof. unfold len. lia. Qed.

Lemma len_app (a b : AudioSegment) : len (a ++ b) = len a + len b.
Proof. unfold len. rewrite length_app. lia. Qed.

Lemma len_nil_iff (c : AudioSegment) : len c = 0 <-> c = [].
Proof.
  unfold len. split; intros H.
  - destruct c; [reflexivity | simpl in H; lia].
  - subst. reflexivity.
Qed.

Lemma meets_min_spec (cfg : config) (c : AudioSegment) :
  Qle_bool (min_chunk_s cfg) (dur_s c) = true <-> (min_chunk_s cfg <= dur_s c)%Q.
Proof. apply Qle_bool_iff. Qed.

Lemma undersized_spec (cfg : config) (c : AudioSegment) :
  Qlt_bool (dur_s c) (min_chunk_s cfg) = true <-> (dur_s c < min_chunk_s cfg)%Q.
Proof.
  unfold Qlt_bool. rewrite negb_true_iff. split; intros H.
  - apply Qnot_le_lt. intros Hle. apply Qle_bool_iff in Hle. congruence.
  - destruct (Qle_bool (min_chunk_s cfg) (dur_s c)) eqn:E; [|reflexivity].
    apply Qle_bool_iff in E. exfalso. exact (Qlt_not_le _ _ H E).
Qed.

Lemma meets_min_false (cfg : config) (c : AudioSegment) :
  Qle_bool (min_chunk_s cfg) (dur_s c) = false <-> (dur_s c < min_chunk_s cfg)%Q.
Proof.
  rewrite <- undersized_spec. unfold Qlt_bool. rewrite negb_true_iff. tauto.
Qed.

Lemma skipn_nth_error (A : Type) (l : list A) (i : nat) (x : A) :
  nth_error l i = Some x -> skipn i l = x :: skipn (S i) l.
Proof.
  revert i. induction l as [|a l IH]; intros [|i] H; simpl in *; try discriminate.
  - injection H as ->. reflexivity.
  - apply IH in H. exact H.
Qed.

Lemma getitem_in_range (chunks : list AudioSegment) (i : nat) :
  (i < length chunks)%nat ->
  exists c, getitem chunks i = Returned c /\ skipn i chunks = c :: skipn (S i) chunks.
Proof.
  intros H. unfold getitem.
  destruct (nth_error chunks i) as [c|] eqn:E.
  - exists c. split; [reflexivity | apply skipn_nth_error; exact E].
  - apply nth_error_None in E. lia.
Qed.

(** * Phase A: the loops compute the merge-forward walk *)

(** For any amount of fuel the inner loop either is still running, and then
    the fuel was no more than the number of chunks left, or it has returned
    what [Accumulated] describes.  It never raises. *)
Lemma merge_loop_spec (cfg : config) (chunks : list AudioSegment) (fuel : nat) :
  forall (j : nat) (merged : AudioSegment),
    (j <= length chunks)%nat ->
    (merge_loop cfg fuel chunks j merged = OutOfFuel /\
     (fuel <= length chunks - j)%nat)
    \/
    (exists j' m,
        merge_loop cfg fuel chunks j merged = Returned (j', m) /\
        (j <= j' <= length chunks)%nat /\
        Accumulated cfg merged (skipn j chunks) m (skipn j' chunks)).
Proof.
  induction fuel as [|fuel IH]; intros j merged Hj; simpl.
  - left. split; [reflexivity | lia].
  - destruct (Nat.ltb_spec j (length chunks)) as [Hlt|Hge]; simpl.
    + destruct (Qlt_bool (dur_s merged) (min_chunk_s cfg)) eqn:Hu.
      * destruct (getitem_in_range chunks Hlt) as (c & Hc & Hskip).
        rewrite Hc. simpl.
        destruct (IH (S j) (merged ++ c)) as [[Ho Hf]|(j' & m & Hr & Hj' & Hacc)];
          [lia| |].
        -- left. split; [exact Ho | lia].
        -- right. exists j', m. split; [exact Hr|]. split; [lia|].
           rewrite Hskip. apply acc_append; [|exact Hacc].
           apply undersized_spec. exact Hu.
      * right. exists j, merged. split; [reflexivity|]. split; [lia|].
        apply acc_stop. left.
        apply meets_min_spec. unfold Qlt_bool in Hu.
        apply negb_false_iff in Hu. exact Hu.
    + right. exists j, merged. split; [reflexivity|]. split; [lia|].
      apply acc_stop. right. apply skipn_all2. lia.
Qed.

(** The same for the outer loop. *)
Lemma merge_forward_spec (cfg : config) (chunks : list AudioSegment) (fuel : nat) :
  forall (i : nat) (final_chunks : list AudioSegment),
    (i <= length chunks)%nat ->
    (merge_forward cfg fuel chunks i final_chunks = OutOfFuel /\
     (fuel <= length chunks - i)%nat)
    \/
    (exists out,
        merge_forward cfg fuel chunks i final_chunks = Returned (final_chunks ++ out) /\
        MergeForward cfg (skipn i chunks) out).
Proof.
  induction fuel as [|fuel IH]; intros i final_chunks Hi; simpl.
  - left. split; [reflexivity | lia].
  - destruct (Nat.ltb_spec i (length chunks)) as [Hlt|Hge].
    + destruct (getitem_in_range chunks Hlt) as (c & Hc & Hskip).
      rewrite Hc. simpl.
      destruct (Qle_bool (min_chunk_s cfg) (dur_s c)) eqn:Hm.
      * destruct (IH (S i) (final_chunks ++ [c])) as [[Ho Hf]|(out & Hr & Hmf)];
          [lia| |].
        -- left. split; [exact Ho | lia].
        -- right. exists (c :: out). rewrite Hr, <- app_assoc. split; [reflexivity|].
           rewrite Hskip. apply mf_emit; [|exact Hmf].
           apply meets_min_spec. exact Hm.
      * destruct (merge_loop_spec cfg chunks fuel (j:=S i) c)
          as [[Ho Hf]|(j' & m & Hr & Hj' & Hacc)]; [lia| |].
        -- left. rewrite Ho. simpl. split; [reflexivity | lia].
        -- rewrite Hr. simpl.
           destruct (IH j' (final_chunks ++ [m])) as [[Ho Hf]|(out & Hr' & Hmf)];
             [lia| |].
           ++ left. split; [exact Ho | lia].
           ++ right. exists (m :: out). rewrite Hr', <- app_assoc.
              split; [reflexivity|].
              rewrite Hskip. eapply mf_merge; [|exact Hacc|exact Hmf].
              apply meets_min_false. exact Hm.
    + right. exists []. rewrite app_nil_r. split; [reflexivity|].
      rewrite skipn_all2 by lia. apply mf_done.
Qed.

(** With more fuel than chunks, Phase A returns. *)
Lemma phase_a_total (cfg : config) (chunks : list AudioSegment) (fuel : nat) :
  (length chunks < fuel)%nat ->
  exists final_chunks,
    phase_a cfg fuel chunks = Returned final_chunks /\
    MergeForward cfg chunks final_chunks.
Proof.
  intros Hf. unfold phase_a.
  destruct (merge_forward_spec cfg chunks fuel (i:=0) []) as [[_ Hle]|(out & Hr & Hmf)];
    [lia|lia|].
  exists out. split; assumption.
Qed.

(** Whatever Phase A returns is the merge-forward walk of its input. *)
Lemma phase_a_sound (cfg : config) (chunks : list AudioSegment) (fuel : nat)
    (final_chunks : list AudioSegment) :
  phase_a cfg fuel chunks = Returned final_chunks ->
  MergeForward cfg chunks final_chunks.
Proof.
  unfold phase_a. intros H.
  destruct (merge_forward_spec cfg chunks fuel (i:=0) []) as [[Ho _]|(out & Hr & Hmf)];
    [lia|congruence|].
  rewrite Hr in H. injection H as <-. exact Hmf.
Qed.

(** * Properties of the merge-forward walk *)

(** The emitted chunk is the accumulator followed by the segments consumed,
    and the scan resumes right after them. *)
Lemma Accumulated_taken (cfg : config) acc rest m rest' :
  Accumulated cfg acc rest m rest' ->
  exists taken, rest = taken ++ rest' /\ m = acc ++ concat taken.
Proof.
  induction 1 as [acc rest _|acc s rest m rest' _ _ (taken & Hrest & Hm)].
  - exists []. simpl. rewrite app_nil_r. split; reflexivity.
  - exists (s :: taken). simpl. subst rest. split; [reflexivity|].
    rewrite Hm, <- app_assoc. reflexivity.
Qed.

(** The accumulator stops only at the minimum or at the end of the input. *)
Lemma Accumulated_stop (cfg : config) acc rest m rest' :
  Accumulated cfg acc rest m rest' ->
  (min_chunk_s cfg <= dur_s m)%Q \/ rest' = [].
Proof. induction 1; assumption. Qed.

Lemma Accumulated_det (cfg : config) acc rest m1 r1 :
  Accumulated cfg acc rest m1 r1 ->
  forall m2 r2, Accumulated cfg acc rest m2 r2 -> m1 = m2 /\ r1 = r2.
Proof.
  induction 1 as [acc rest Hstop|acc s rest m rest' Hlt _ IH]; intros m2 r2 H2.
  - inversion H2; subst.
    + split; reflexivity.
    + destruct Hstop as [Hge|Hnil]; [|discriminate].
      exfalso. exact (Qlt_not_le _ _ H Hge).
  - inversion H2; subst.
    + destruct H as [Hge|Hnil]; [|discriminate].
      exfalso. exact (Qlt_not_le _ _ Hlt Hge).
    + apply IH. assumption.
Qed.

(** The walk determines its output. *)
Lemma MergeForward_det (cfg : config) chunks out1 :
  MergeForward cfg chunks out1 ->
  forall out2, MergeForward cfg chunks out2 -> out1 = out2.
Proof.
  induction 1 as [|s rest out Hge _ IH|s rest m rest' out Hlt Hacc _ IH];
    intros out2 H2; inversion H2; subst.
  - reflexivity.
  - f_equal. apply IH. assumption.
  - exfalso. exact (Qlt_not_le _ _ H1 Hge).
  - exfalso. exact (Qlt_not_le _ _ Hlt H1).
  - destruct (Accumulated_det Hacc H3) as [-> ->].
    f_equal. apply IH. assumption.
Qed.

(** The output chunks are the concatenations of consecutive, non-empty groups
    of input segments that together make up the whole input. *)
Lemma MergeForward_groups (cfg : config) chunks out :
  MergeForward cfg chunks out ->
  exists groups : list (list AudioSegment),
    concat groups = chunks /\
    Forall (fun g => g <> []) groups /\
    out = map (@concat frame) groups.
Proof.
  induction 1 as [|s rest out _ _ (groups & Hc & Hne & Ho)
                  |s rest m rest' out _ Hacc _ (groups & Hc & Hne & Ho)].
  - exists []. repeat split. constructor.
  - exists ([s] :: groups). simpl. rewrite Hc, Ho, app_nil_r.
    repeat split. constructor; [discriminate | exact Hne].
  - destruct (Accumulated_taken Hacc) as (taken & Hrest & Hm).
    exists ((s :: taken) :: groups). simpl. rewrite Hc, Ho, Hrest, Hm.
    repeat split. constructor; [discriminate | exact Hne].
Qed.

(** Every emitted chunk but the last one meets the minimum. *)
Lemma MergeForward_min (cfg : config) chunks out :
  MergeForward cfg chunks out ->
  forall pre c post,
    out = pre ++ c :: post -> post <> [] ->
    (min_chunk_s cfg <= dur_s c)%Q.
Proof.
  induction 1 as [|s rest out Hge _ IH|s rest m rest' out _ Hacc Hmf IH];
    intros pre c post Heq Hpost.
  - destruct pre; discriminate.
  - destruct pre as [|p pre]; simpl in Heq; injection Heq as <- Heq.
    + exact Hge.
    + eapply IH; eassumption.
  - destruct pre as [|p pre]; simpl in Heq; injection Heq as <- Heq.
    + destruct (Accumulated_stop Hacc) as [Hge|Hnil]; [exact Hge|].
      subst rest'. inversion Hmf; subst. contradiction.
    + eapply IH; eassumption.
Qed.

Lemma Forall_app_r (A : Type) (P : A -> Prop) (l1 l2 : list A) :
  Forall P (l1 ++ l2) -> Forall P l2.
Proof. intros H. apply Forall_app in H. tauto. Qed.

(** Non-empty segments give non-empty chunks. *)
Lemma MergeForward_nonempty (cfg : config) chunks out :
  MergeForward cfg chunks out ->
  Forall (fun c => 0 < len c) chunks ->
  Forall (fun c => 0 < len c) out.
Proof.
  induction 1 as [|s rest out _ _ IH|s rest m rest' out _ Hacc _ IH]; intros Hall.
  - constructor.
  - inversion Hall; subst. constructor; [assumption | apply IH; assumption].
  - inversion Hall; subst.
    destruct (Accumulated_taken Hacc) as (taken & Hrest & Hm).
    constructor.
    + rewrite Hm, len_app. pose proof (len_nonneg (concat taken)). lia.
    + apply IH. rewrite Hrest in H2. exact (Forall_app_r _ _ H2).
Qed.

(** A sequence whose chunks all meet the minimum is its own walk. *)
Lemma MergeForward_id (cfg : config) chunks :
  Forall (fun c => (min_chunk_s cfg <= dur_s c)%Q) chunks ->
  MergeForward cfg chunks chunks.
Proof.
  induction 1; [apply mf_done | apply mf_emit; assumption].
Qed.

(** * Phase B: the loops compute the split *)

Lemma len_firstn (n : nat) (c : AudioSegment) :
  len (firstn n c) = Z.min (Z.of_nat n) (len c).
Proof. unfold len. rewrite length_firstn. lia. Qed.

Lemma len_skipn (n : nat) (c : AudioSegment) :
  len (skipn n c) = Z.max 0 (len c - Z.of_nat n).
Proof. unfold len. rewrite length_skipn. lia. Qed.

(** Inside the loop, with a positive step, the slice is the next
    [max_ms] milliseconds of the chunk, or what is left of it. *)
Lemma getslice_forward (c : AudioSegment) (start step : Z) :
  0 <= start -> 1 <= step -> start < len c ->
  getslice c start (start + step)
  = firstn (Z.to_nat (Z.min step (len c - start))) (skipn (Z.to_nat start) c).
Proof.
  intros Hs Hstep Hlt. unfold getslice, parse_position, py_bound.
  repeat match goal with
         | |- context [?a <? ?b] => destruct (Z.ltb_spec a b); try lia
         end.
  f_equal; f_equal; lia.
Qed.

Lemma slice_loop_spec (cfg : config) (c : AudioSegment) :
  1 <= max_ms cfg ->
  forall (fuel : nat) (start : Z) (processed : list AudioSegment),
    0 <= start ->
    (slice_loop cfg fuel c start processed = OutOfFuel /\
     Z.of_nat fuel <= Z.max 0 (len c - start))
    \/
    (exists ps,
        slice_loop cfg fuel c start processed = Returned (processed ++ ps) /\
        Pieces (max_ms cfg) (skipn (Z.to_nat start) c) ps).
Proof.
  intros Hstep. set (step := max_ms cfg) in *.
  induction fuel as [|fuel IH]; intros start processed Hs; simpl.
  - left. split; [reflexivity | lia].
  - fold step. destruct (Z.ltb_spec start (len c)) as [Hlt|Hge].
    + rewrite getslice_forward by assumption.
      set (r := skipn (Z.to_nat start) c).
      assert (Hr : len r = len c - start)
        by (unfold r; rewrite len_skipn; lia).
      assert (Hnext : skipn (Z.to_nat (start + step)) c = skipn (Z.to_nat step) r).
      { unfold r. rewrite skipn_skipn. f_equal. lia. }
      set (piece := firstn (Z.to_nat (Z.min step (len c - start))) r).
      assert (Hpiece : len piece = Z.min step (len c - start))
        by (unfold piece; rewrite len_firstn; lia).
      destruct (IH (start + step) (processed ++ [piece]))
        as [[Ho Hf]|(ps & Hret & Hcat & Hshape)]; [lia| |].
      * left. split; [exact Ho | lia].
      * right. exists (piece :: ps). rewrite <- app_assoc in Hret.
        split; [exact Hret|]. rewrite Hnext in Hcat, Hshape.
        assert (Hlen' : len (skipn (Z.to_nat step) r) = Z.max 0 (len c - start - step))
          by (rewrite len_skipn; lia).
        split.
        -- simpl. rewrite Hcat.
           destruct (Z.le_gt_cases (len c - start) step) as [Hle|Hgt].
           ++ unfold piece. rewrite Z.min_r by lia.
              rewrite firstn_all2 by (unfold len in *; lia).
              rewrite skipn_all2 by (unfold len in *; lia).
              apply app_nil_r.
           ++ unfold piece. rewrite Z.min_l by lia. apply firstn_skipn.
        -- right. destruct Hshape as [[Hnil ->]|(init & last & -> & Hinit & Hlast)].
           ++ exists [], piece. repeat split; [constructor|lia|].
              rewrite Hnil in Hlen'. change (len []) with 0 in Hlen'. lia.
           ++ exists (piece :: init), last. repeat split; try lia.
              constructor; [|exact Hinit].
              assert (0 < len (skipn (Z.to_nat step) r)).
              { rewrite <- Hcat, concat_app, len_app. simpl. rewrite app_nil_r.
                pose proof (len_nonneg (concat init)). lia. }
              lia.
    + right. exists []. rewrite app_nil_r. split; [reflexivity|].
      assert (Hnil : skipn (Z.to_nat start) c = [])
        by (apply skipn_all2; unfold len in Hge; lia).
      rewrite Hnil. split; [reflexivity | left; split; reflexivity].
Qed.

(** With a step of zero or less the cursor never moves forward, so the loop
    over a non-empty chunk never ends. *)
Lemma slice_loop_diverges (cfg : config) (c : AudioSegment) :
  max_ms cfg <= 0 -> 0 < len c ->
  forall (fuel : nat) (start : Z) (processed : list AudioSegment),
    start <= 0 ->
    slice_loop cfg fuel c start processed = OutOfFuel.
Proof.
  intros Hstep Hc. induction fuel as [|fuel IH]; intros start processed Hs; simpl.
  - reflexivity.
  - destruct (Z.ltb_spec start (len c)) as [_|Hge]; [|lia].
    apply IH. lia.
Qed.

(** A chunk that is split has at least two pieces. *)
Lemma Pieces_split (step : Z) (c : AudioSegment) (ps : list AudioSegment) :
  step < len c -> Pieces step c ps -> 0 < len c -> SplitOf step c ps.
Proof.
  intros Hlt [Hcat Hshape] Hpos.
  destruct Hshape as [[-> _]|(init & last & -> & Hinit & Hlast)].
  - change (len []) with 0 in Hpos. lia.
  - apply split_pieces; assumption.
Qed.

(** For enough fuel and a positive step, Phase B returns the pieces of each
    chunk, chunk after chunk. *)
Lemma split_oversized_total (cfg : config) (fuel : nat) :
  1 <= max_ms cfg ->
  forall (final_chunks processed : list AudioSegment),
    Forall (fun c => len c < Z.of_nat fuel) final_chunks ->
    exists pss,
      split_oversized cfg fuel final_chunks processed
      = Returned (processed ++ concat pss) /\
      Forall2 (SplitOf (max_ms cfg)) final_chunks pss.
Proof.
  intros Hstep. induction final_chunks as [|c rest IH]; intros processed Hall; simpl.
  - exists []. simpl. rewrite app_nil_r. split; [reflexivity | constructor].
  - inversion Hall as [|? ? Hc Hrest]; subst.
    destruct (Z.leb_spec (len c) (max_ms cfg)) as [Hle|Hgt].
    + destruct (IH (processed ++ [c]) Hrest) as (pss & Hret & Hsp).
      exists ([c] :: pss). rewrite Hret. simpl. rewrite <- app_assoc.
      split; [reflexivity|]. constructor; [apply split_whole; exact Hle | exact Hsp].
    + destruct (slice_loop_spec cfg c Hstep fuel (start:=0) processed)
        as [[_ Hf]|(ps & Hret & Hps)]; [lia|lia|].
      rewrite Hret. simpl.
      destruct (IH (processed ++ ps) Hrest) as (pss & Hret' & Hsp).
      exists (ps :: pss). rewrite Hret'. simpl. rewrite <- app_assoc.
      split; [reflexivity|].
      constructor; [|exact Hsp]. apply Pieces_split; [lia|exact Hps|lia].
Qed.

(** Whatever Phase B returns is made of pieces that reconstruct each chunk;
    for a non-empty chunk they are the split the specification describes. *)
Lemma split_oversized_sound (cfg : config) (fuel : nat) :
  forall (final_chunks processed out : list AudioSegment),
    split_oversized cfg fuel final_chunks processed = Returned out ->
    exists pss,
      out = processed ++ concat pss /\
      Forall2 (fun c ps => concat ps = c /\
                           (0 < len c -> SplitOf (max_ms cfg) c ps))
              final_chunks pss.
Proof.
  induction final_chunks as [|c rest IH]; intros processed out H; simpl in H.
  - injection H as <-. exists []. simpl. rewrite app_nil_r.
    split; [reflexivity | constructor].
  - destruct (Z.leb_spec (len c) (max_ms cfg)) as [Hle|Hgt].
    + destruct (IH _ _ H) as (pss & -> & Hsp).
      exists ([c] :: pss). simpl. rewrite <- app_assoc.
      split; [reflexivity|]. constructor; [|exact Hsp].
      split; [apply app_nil_r | intros _; apply split_whole; exact Hle].
    + destruct (slice_loop cfg fuel c 0 processed) as [processed'| |] eqn:Hloop;
        simpl in H; try discriminate.
      destruct (IH _ _ H) as (pss & -> & Hsp).
      destruct (Z.le_gt_cases 1 (max_ms cfg)) as [Hstep|Hstep].
      * destruct (slice_loop_spec cfg c Hstep fuel (start:=0) processed)
          as [[Ho _]|(ps & Hret & Hps)]; [lia|congruence|].
        rewrite Hret in Hloop. injection Hloop as <-.
        exists (ps :: pss). simpl. rewrite <- app_assoc.
        split; [reflexivity|]. constructor; [|exact Hsp].
        split; [apply Hps | intros Hpos; apply Pieces_split; [lia|exact Hps|exact Hpos]].
      * destruct (Z.le_gt_cases (len c) 0) as [Hnil|Hpos].
        -- assert (Hc : c = []) by (apply len_nil_iff; pose proof (len_nonneg c); lia).
           subst c. destruct fuel; simpl in Hloop; [discriminate|].
           injection Hloop as <-.
           exists ([] :: pss). simpl. split; [reflexivity|].
           constructor; [|exact Hsp]. split; [reflexivity|].
           change (len []) with 0. lia.
        -- rewrite slice_loop_diverges in Hloop by lia. discriminate.
Qed.

(** * Milliseconds and seconds *)

Lemma Q1000_pos : (0 < inject_Z 1000)%Q.
Proof. reflexivity. Qed.

(** Where [int] yields at least one it rounds down. *)
Lemma py_int_floor (q : Q) : 1 <= py_int q -> (inject_Z (py_int q) <= q)%Q.
Proof.
  destruct q as [n d]. unfold py_int, Qle. simpl. intros H.
  assert (Hn : 0 <= n).
  { destruct (Z.le_gt_cases 0 n) as [Hn|Hn]; [exact Hn|].
    pose proof (Z.quot_opp_l n (Z.pos d) ltac:(lia)) as Ho.
    pose proof (Z.quot_pos (- n) (Z.pos d) ltac:(lia) ltac:(lia)). lia. }
  rewrite Z.quot_div_nonneg by lia.
  pose proof (Z.mul_div_le n (Z.pos d) ltac:(lia)). lia.
Qed.

(** A non-negative whole number below [q] is at most [int(q)]. *)
Lemma py_int_ge (q : Q) (z : Z) :
  0 <= z -> (inject_Z z <= q)%Q -> z <= py_int q.
Proof.
  destruct q as [n d]. unfold py_int, Qle. simpl. intros Hz H.
  assert (Hn : 0 <= n) by nia.
  rewrite Z.quot_div_nonneg by lia.
  apply Z.div_le_lower_bound; lia.
Qed.

Lemma dur_s_le (c : AudioSegment) (q : Q) :
  (dur_s c <= q)%Q <-> (inject_Z (len c) <= q * inject_Z 1000)%Q.
Proof.
  unfold dur_s. split; intros H.
  - setoid_replace (inject_Z (len c))
      with ((inject_Z (len c) / inject_Z 1000) * inject_Z 1000)%Q
      by (field; discriminate).
    apply Qmult_le_compat_r; [exact H | discriminate].
  - apply Qle_shift_div_r; [apply Q1000_pos | exact H].
Qed.

(** A chunk no longer than [max_ms] lasts at most [max_chunk_s]. *)
Lemma within_max_ms (cfg : config) (c : AudioSegment) :
  1 <= max_ms cfg -> len c <= max_ms cfg -> (dur_s c <= max_chunk_s cfg)%Q.
Proof.
  intros Hstep Hle. apply dur_s_le.
  apply Qle_trans with (inject_Z (max_ms cfg)).
  - rewrite <- Zle_Qle. exact Hle.
  - apply py_int_floor. exact Hstep.
Qed.

(** A chunk lasting at most [max_chunk_s] is no longer than [max_ms]. *)
Lemma within_max_chunk_s (cfg : config) (c : AudioSegment) :
  (dur_s c <= max_chunk_s cfg)%Q -> len c <= max_ms cfg.
Proof.
  intros H. apply py_int_ge; [apply len_nonneg | apply dur_s_le; exact H].
Qed.

(** * The two phases together *)

Lemma concat_map_concat (A : Type) (groups : list (list (list A))) :
  concat (map (@concat A) groups) = concat (concat groups).
Proof.
  induction groups as [|g groups IH]; simpl.
  - reflexivity.
  - rewrite concat_app, IH. reflexivity.
Qed.

Lemma len_in_concat (l : list AudioSegment) (x : AudioSegment) :
  In x l -> len x <= len (concat l).
Proof.
  induction l as [|y l IH]; simpl; intros H; [contradiction|].
  rewrite len_app. destruct H as [->|H].
  - pose proof (len_nonneg (concat l)). lia.
  - pose proof (len_nonneg y). apply IH in H. lia.
Qed.

(** No chunk of Phase A is longer than the whole input. *)
Lemma MergeForward_len_bound (cfg : config) chunks out :
  MergeForward cfg chunks out ->
  Forall (fun c => len c <= len (concat chunks)) out.
Proof.
  intros H. destruct (MergeForward_groups H) as (groups & <- & _ & ->).
  rewrite <- concat_map_concat. apply Forall_forall. intros c Hin.
  apply len_in_concat. exact Hin.
Qed.

Lemma slice_loop_no_raise (cfg : config) (c : AudioSegment) (e : error) :
  forall (fuel : nat) (start : Z) (processed : list AudioSegment),
    slice_loop cfg fuel c start processed <> Raised e.
Proof.
  induction fuel as [|fuel IH]; intros start processed; simpl.
  - discriminate.
  - destruct (start <? len c); [apply IH | discriminate].
Qed.

Lemma split_oversized_no_raise (cfg : config) (fuel : nat) (e : error) :
  forall (final_chunks processed : list AudioSegment),
    split_oversized cfg fuel final_chunks processed <> Raised e.
Proof.
  induction final_chunks as [|c rest IH]; intros processed; simpl.
  - discriminate.
  - destruct (len c <=? max_ms cfg); [apply IH|].
    destruct (slice_loop cfg fuel c 0 processed) eqn:Hloop; simpl.
    + apply IH.
    + exfalso. eapply slice_loop_no_raise. exact Hloop.
    + discriminate.
Qed.



Lemma normalize_total (cfg : config) (chunks : list AudioSegment) (fuel : nat) :
  1 <= max_ms cfg ->
  (enough_fuel chunks <= fuel)%nat ->
  exists final_chunks pss,
    MergeForward cfg chunks final_chunks /\
    Forall2 (SplitOf (max_ms cfg)) final_chunks pss /\
    normalize cfg fuel chunks = Returned (concat pss).
Proof.
  intros Hstep Hfuel. unfold enough_fuel in Hfuel. unfold normalize.
  destruct (phase_a_total cfg chunks (fuel:=fuel)) as (final & Ha & Hmf); [lia|].
  rewrite Ha. simpl.
  destruct (@split_oversized_total cfg fuel Hstep final [])
    as (pss & Hb & Hsp).
  { eapply Forall_impl; [|apply (MergeForward_len_bound Hmf)].
    intros c Hc. simpl in Hc. unfold len in *. lia. }
  exists final, pss. repeat split; assumption.
Qed.

Lemma SplitOf_concat (step : Z) (c : AudioSegment) (ps : list AudioSegment) :
  SplitOf step c ps -> concat ps = c.
Proof.
  intros [Hle|init last _ _ _ Hcat]; [apply app_nil_r | exact Hcat].
Qed.

(** Every piece of a non-empty chunk is non-empty and at most [step] long;
    so [step] is at least one. *)
Lemma SplitOf_bounds (step : Z) (c : AudioSegment) (ps : list AudioSegment) :
  SplitOf step c ps -> 0 < len c ->
  1 <= step /\ Forall (fun p => 0 < len p <= step) ps.
Proof.
  intros [Hle|init last Hlt Hinit Hlast Hcat] Hpos.
  - split; [lia|]. constructor; [lia | constructor].
  - split; [lia|]. apply Forall_app. split.
    + eapply Forall_impl; [|exact Hinit]. simpl. intros p Hp. lia.
    + constructor; [lia | constructor].
Qed.

(** A group of a single piece is a chunk that was kept whole. *)
Lemma SplitOf_single (step : Z) (c p : AudioSegment) :
  SplitOf step c [p] -> p = c.
Proof.
  intros H. apply SplitOf_concat in H. simpl in H. rewrite app_nil_r in H. exact H.
Qed.

Lemma normalize_sound (cfg : config) (chunks : list AudioSegment) (fuel : nat)
    (out : list AudioSegment) :
  Forall (fun c => 0 < len c) chunks ->
  normalize cfg fuel chunks = Returned out ->
  exists final_chunks pss,
    MergeForward cfg chunks final_chunks /\
    Forall (fun c => 0 < len c) final_chunks /\
    Forall2 (SplitOf (max_ms cfg)) final_chunks pss /\
    out = concat pss.
Proof.
  intros Hne H. unfold normalize in H.
  destruct (phase_a cfg fuel chunks) as [final| |] eqn:Ha; simpl in H;
    try discriminate.
  apply phase_a_sound in Ha.
  pose proof (MergeForward_nonempty Ha Hne) as Hfinal.
  destruct (split_oversized_sound cfg fuel final [] H) as (pss & -> & Hsp).
  exists final, pss. repeat split; try assumption.
  clear - Hfinal Hsp. induction Hsp as [|c ps final pss [_ Hc] _ IH].
  - constructor.
  - inversion Hfinal; subst. constructor; [apply Hc; assumption | apply IH; assumption].
Qed.

(** Chunks that all fit are passed through by Phase B. *)
Lemma split_oversized_fit (cfg : config) (fuel : nat) :
  forall (final_chunks processed : list AudioSegment),
    Forall (fun c => len c <= max_ms cfg) final_chunks ->
    split_oversized cfg fuel final_chunks processed
    = Returned (processed ++ final_chunks).
Proof.
  induction final_chunks as [|c rest IH]; intros processed Hall; simpl.
  - rewrite app_nil_r. reflexivity.
  - inversion Hall; subst.
    destruct (Z.leb_spec (len c) (max_ms cfg)) as [_|Hgt]; [|lia].
    rewrite IH by assumption. rewrite <- app_assoc. reflexivity.
Qed.

(** * Phase A *)




(** C7. Phase A is one forward pass that consumes every segment exactly
    once: its output chunks are the concatenations of consecutive, non-empty
    groups of segments which, put end to end, are the input.  Nothing is
    discarded, a trailing undersized group included, so the concatenation of
    the outputs is the concatenation of the inputs. *)
Theorem C7_single_pass_conservation (cfg : config) (chunks : list AudioSegment) :
  exists (final_chunks : list AudioSegment) (groups : list (list AudioSegment)),
    (forall fuel, (length chunks < fuel)%nat ->
                  phase_a cfg fuel chunks = Returned final_chunks) /\
    concat groups = chunks /\
    Forall (fun g => g <> []) groups /\
    final_chunks = map (@concat frame) groups /\
    concat final_chunks = concat chunks.
Proof.
  destruct (phase_a_total cfg chunks (fuel:=S (length chunks)))
    as (final & _ & Hmf); [lia|].
  destruct (MergeForward_groups Hmf) as (groups & Hcat & Hne & Hout).
  exists final, groups. repeat split; try assumption.
  - intros fuel Hfuel.
    destruct (phase_a_total cfg chunks Hfuel) as (final' & Hret & Hmf').
    rewrite Hret. f_equal. exact (MergeForward_det Hmf' Hmf).
  - rewrite Hout, concat_map_concat. f_equal. exact Hcat.
Qed.

Lemma C7_single_pass_conservation_witness :
  exists final_chunks,
    phase_a default_config 4 [tone 1 3000; tone 2 1000; tone 3 500]
    = Returned final_chunks /\
    concat final_chunks = concat [tone 1 3000; tone 2 1000; tone 3 500].
Proof.
  destruct (C7_single_pass_conservation default_config
              [tone 1 3000; tone 2 1000; tone 3 500])
    as (final & groups & Hrun & _ & _ & _ & Hcat).
  exists final. split; [apply Hrun; simpl; lia | exact Hcat].
Defined.

(** * Termination *)


(** With a step of zero or less, Phase B does not return on a non-empty
    chunk: the hypothesis of the termination statement cannot be dropped. *)
Lemma phase_b_diverges (cfg : config) (c : AudioSegment) (rest : list AudioSegment) :
  max_ms cfg <= 0 -> 0 < len c ->
  forall fuel, phase_b cfg fuel (c :: rest) = OutOfFuel.
Proof.
  intros Hstep Hc fuel. unfold phase_b. simpl.
  destruct (Z.leb_spec (len c) (max_ms cfg)) as [Hle|_]; [lia|].
  rewrite slice_loop_diverges by lia. reflexivity.
Qed.



(** * Phase B *)

Lemma len_concat_uniform (step : Z) (init : list AudioSegment) :
  Forall (fun p => len p = step) init ->
  len (concat init) = step * Z.of_nat (length init).
Proof.
  induction 1 as [|p init Hp _ IH]; simpl.
  - change (len []) with 0. lia.
  - rewrite len_app, IH, Hp. lia.
Qed.

Lemma phase_b_spec (cfg : config) (final_chunks : list AudioSegment) (fuel : nat) :
  1 <= max_ms cfg ->
  (length (concat final_chunks) < fuel)%nat ->
  exists pss,
    Forall2 (SplitOf (max_ms cfg)) final_chunks pss /\
    phase_b cfg fuel final_chunks = Returned (concat pss).
Proof.
  intros Hstep Hfuel.
  destruct (@split_oversized_total cfg fuel Hstep final_chunks [])
    as (pss & Hret & Hsp).
  - apply Forall_forall. intros c Hin. apply len_in_concat in Hin.
    unfold len in *. lia.
  - exists pss. split; assumption.
Qed.

(** * The filter on raw segments *)

Lemma filter_nonempty (l : list AudioSegment) :
  Forall (fun c => 0 < len c) (filter (fun c => 0 <? len c) l).
Proof.
  apply Forall_forall. intros c Hin. apply filter_In in Hin.
  destruct Hin as [_ H]. apply Z.ltb_lt. exact H.
Qed.

Lemma filter_all_empty (l : list AudioSegment) :
  (forall c, In c l -> len c <= 0) ->
  filter (fun c => 0 <? len c) l = [].
Proof.
  induction l as [|c l IH]; intros H; simpl; [reflexivity|].
  destruct (Z.ltb_spec 0 (len c)) as [Hpos|_].
  - specialize (H c (or_introl eq_refl)). lia.
  - apply IH. intros c' Hin. apply H. right. exact Hin.
Qed.

(** * The batch driver *)

Section DriverFacts.
Variables World exn : Type.
Variable X : externals World exn.
Variables tmp_dir out_root : string.

(** One iteration prints the address and then one report about it, whether
    the [try] block completed or raised. *)
Lemma process_url_spec (url : string) (w : World) (printed : list (line exn)) :
  exists w' r,
    process_url X tmp_dir out_root url (w, printed)
    = (w', printed ++ [Processing url; r]) /\
    reports url r.
Proof.
  unfold process_url.
  destruct (try_body X tmp_dir out_root url w) as [[[n out_dir]|e] w'].
  - exists w', (Exported n out_dir). rewrite <- app_assoc. split; [reflexivity|exact I].
  - exists w', (ErrorFor url e). rewrite <- app_assoc. split; reflexivity.
Qed.

Lemma for_urls_spec (urls : list string) :
  forall (w : World) (printed : list (line exn)),
  exists w' groups,
    for_urls X tmp_dir out_root urls (w, printed) = (w', printed ++ concat groups) /\
    Forall2 (fun url g => exists r, g = [Processing url; r] /\ reports url r)
            urls groups.
Proof.
  induction urls as [|url urls IH]; intros w printed; cbn [for_urls].
  - exists w, []. simpl. rewrite app_nil_r. split; [reflexivity | constructor].
  - destruct (process_url_spec url w printed) as (w1 & r & -> & Hr).
    destruct (IH w1 (printed ++ [Processing url; r])) as (w' & groups & -> & Hg).
    exists w', ([Processing url; r] :: groups). simpl. rewrite <- app_assoc.
    split; [reflexivity|]. constructor; [|exact Hg].
    exists r. split; [reflexivity | exact Hr].
Qed.

(** When the [try] block raises, the error is printed and the loop goes on
    with the remaining addresses. *)
Lemma for_urls_failure (url : string) (rest : list string) (w w' : World)
    (printed : list (line exn)) (e : exn) :
  try_body X tmp_dir out_root url w = (inr e, w') ->
  for_urls X tmp_dir out_root (url :: rest) (w, printed)
  = for_urls X tmp_dir out_root rest (w', printed ++ [Processing url; ErrorFor url e]).
Proof.
  intros H. simpl. rewrite H, <- app_assoc. reflexivity.
Qed.
End DriverFacts.

(** C9. For a CSV with a [url] column, the driver returns normally whatever
    the processing of the addresses does.  It attempts every distinct,
    present address, in order: for each it prints the address and then one
    report, the number of exported chunks or the error raised for that
    address.  When the processing of an address raises an exception, the
    error is printed and the loop continues with the remaining addresses. *)
Theorem C9_failure_isolation (World exn : Type) (X : externals World exn)
    (tmp_dir out_root : string) (df : dataframe) (cells : list (option string))
    (w : World) :
  get_column "url" df = Some cells ->
  (exists w' groups,
      process_csv X tmp_dir out_root df w = Some (w', concat groups) /\
      Forall2 (fun url g => exists r, g = [Processing url; r] /\ reports url r)
              (unique (dropna cells)) groups)
  /\
  (forall url rest w0 w1 printed e,
      try_body X tmp_dir out_root url w0 = (inr e, w1) ->
      for_urls X tmp_dir out_root (url :: rest) (w0, printed)
      = for_urls X tmp_dir out_root rest
          (w1, printed ++ [Processing url; ErrorFor url e])).
Proof.
  intros Hcol. split.
  - unfold process_csv. rewrite Hcol.
    destruct (for_urls_spec X tmp_dir out_root (unique (dropna cells)) w [])
      as (w' & groups & -> & Hg).
    exists w', groups. split; [reflexivity | exact Hg].
  - intros url rest w0 w1 printed e H. apply for_urls_failure. exact H.
Qed.

Lemma C9_failure_isolation_witness :
  (exists w' groups,
      process_csv demo_externals "tmp" "out" demo_dataframe 0%nat
      = Some (w', concat groups) /\
      Forall2 (fun url g => exists r, g = [Processing url; r] /\ reports url r)
              ["a"; "bad"; "c"]%string groups)
  /\
  for_urls demo_externals "tmp" "out" ["bad"; "c"]%string (3%nat, [])
  = for_urls demo_externals "tmp" "out" ["c"]%string
      (4%nat, [Processing "bad"; ErrorFor "bad" "download failed"]%string).
Proof.
  destruct (@C9_failure_isolation nat string demo_externals "tmp" "out"
              demo_dataframe _ 0%nat eq_refl) as [Hall Hfail].
  split; [exact Hall|].
  apply (Hfail "bad"%string ["c"%string] 3%nat 4%nat [] "download failed"%string).
  reflexivity.
Defined.

(** * Further properties of the chunking *)

Lemma concat_filter_nonempty (l : list AudioSegment) :
  concat (filter (fun c => 0 <? len c) l) = concat l.
Proof.
  induction l as [|c l IH]; simpl; [reflexivity|].
  destruct (Z.ltb_spec 0 (len c)) as [_|Hle]; simpl.
  - rewrite IH. reflexivity.
  - assert (Hc : c = []) by (apply len_nil_iff; pose proof (len_nonneg c); lia).
    subst c. exact IH.
Qed.

Lemma map_snd_enumerate (A : Type) (l : list A) (start : nat) :
  map snd (enumerate start l) = l.
Proof.
  revert start. induction l as [|x l IH]; intros start; simpl;
    [reflexivity | rewrite IH; reflexivity].
Qed.

Lemma map_fst_enumerate (A : Type) (l : list A) (start : nat) :
  map fst (enumerate start l) = seq start (length l).
Proof.
  revert start. induction l as [|x l IH]; intros start; simpl;
    [reflexivity | rewrite IH; reflexivity].
Qed.

(** What the function returns is the enumeration of what the two phases
    return on the non-empty raw segments. *)
Lemma split_by_silence_and_chunk_inv
    (split_on_silence : AudioSegment -> list AudioSegment)
    (cfg : config) (fuel : nat) (audio : AudioSegment)
    (exported : list (nat * AudioSegment)) :
  split_by_silence_and_chunk split_on_silence cfg fuel audio = Returned exported ->
  exists processed,
    normalize cfg fuel (filter (fun c => 0 <? len c) (split_on_silence audio))
    = Returned processed /\
    exported = enumerate 1 processed.
Proof.
  unfold split_by_silence_and_chunk. intros H.
  destruct (normalize cfg fuel _) as [processed| |]; simpl in H; try discriminate.
  injection H as <-. exists processed. split; reflexivity.
Qed.

Lemma pieces_nonempty (step : Z) :
  forall (final_chunks : list AudioSegment) (pss : list (list AudioSegment)),
    Forall2 (SplitOf step) final_chunks pss ->
    Forall (fun c => 0 < len c) final_chunks ->
    Forall (fun p => 0 < len p) (concat pss).
Proof.
  induction 1 as [|c ps final pss Hc _ IH]; intros Hne; simpl.
  - constructor.
  - inversion Hne as [|? ? Hpos Hne']; subst.
    apply Forall_app. split; [|apply IH; exact Hne'].
    destruct (@SplitOf_bounds _ _ _ Hc Hpos) as [_ Hps].
    eapply Forall_impl; [|exact Hps]. simpl. intros p Hp. lia.
Qed.

(** X3. No exported chunk is empty. *)
Theorem X3_no_empty_chunk_exported
    (split_on_silence : AudioSegment -> list AudioSegment)
    (cfg : config) (fuel : nat) (audio : AudioSegment)
    (exported : list (nat * AudioSegment)) :
  split_by_silence_and_chunk split_on_silence cfg fuel audio = Returned exported ->
  Forall (fun ic => 0 < len (snd ic)) exported.
Proof.
  intros H.
  destruct (@split_by_silence_and_chunk_inv _ _ _ _ _ H) as (processed & Hn & ->).
  destruct (@normalize_sound cfg _ fuel _ (filter_nonempty _) Hn)
    as (final & pss & _ & Hfinal & Hsp & ->).
  pose proof (@pieces_nonempty _ _ _ Hsp Hfinal) as Hall.
  clear - Hall. generalize 1%nat.
  induction Hall as [|p out Hp _ IH]; intros n; simpl; constructor;
    [exact Hp | apply IH].
Qed.

Lemma X3_no_empty_chunk_exported_witness :
  Forall (fun ic => 0 < len (snd ic))
         [(1%nat, tone 1 8000); (2%nat, tone 1 1000)].
Proof.
  apply (@X3_no_empty_chunk_exported
           (fun audio => [[]; audio; []]) default_config 4 (tone 1 9000)).
  vm_compute. reflexivity.
Defined.

(** ** How many pieces, and when the loop does not end *)

(** X4. A non-empty chunk of [len] milliseconds comes out of Phase B as
    the ceiling of [len / max_ms] pieces (one piece when it fits). *)
Theorem X4_piece_count (cfg : config) (c : AudioSegment) (fuel : nat)
    (out : list AudioSegment) :
  1 <= max_ms cfg -> 0 < len c ->
  phase_b cfg fuel [c] = Returned out ->
  Z.of_nat (length out) = (len c + max_ms cfg - 1) / max_ms cfg.
Proof.
  intros Hstep Hpos H. unfold phase_b in H.
  destruct (split_oversized_sound cfg fuel [c] [] H) as (pss & -> & Hsp).
  inversion Hsp as [|? ps ? pss' [_ Hc] Hrest]; subst. inversion Hrest; subst.
  simpl. rewrite app_nil_r.
  destruct (Hc Hpos) as [Hle|init last Hlt Hinit Hlast Hcat].
  - simpl. apply Z.div_unique with (r := len c - 1); lia.
  - pose proof (len_concat_uniform Hinit) as Hin.
    assert (Hsum : len c = max_ms cfg * Z.of_nat (length init) + len last).
    { rewrite <- Hin, <- Hcat, concat_app, len_app. simpl.
      rewrite app_nil_r. reflexivity. }
    rewrite length_app. simpl length.
    apply Z.div_unique with (r := len last - 1); lia.
Qed.

Lemma X4_piece_count_witness :
  Z.of_nat (length [tone 1 8000; tone 1 8000; tone 1 1500])
  = (len (tone 1 17500) + max_ms default_config - 1) / max_ms default_config.
Proof.
  apply (@X4_piece_count default_config (tone 1 17500) 4%nat).
  - vm_compute. discriminate.
  - vm_compute. reflexivity.
  - vm_compute. reflexivity.
Defined.




(** ** Running a phase again *)

Lemma MergeForward_fixed (cfg : config) (l : list AudioSegment) :
  (forall pre c post, l = pre ++ c :: post -> post <> [] ->
                      (min_chunk_s cfg <= dur_s c)%Q) ->
  MergeForward cfg l l.
Proof.
  induction l as [|c l IH]; intros H; [apply mf_done|].
  destruct l as [|c' l].
  - destruct (Qlt_le_dec (dur_s c) (min_chunk_s cfg)) as [Hlt|Hge].
    + eapply mf_merge; [exact Hlt | apply acc_stop; right; reflexivity | apply mf_done].
    + apply mf_emit; [exact Hge | apply mf_done].
  - apply mf_emit.
    + apply (H [] c (c' :: l) eq_refl). discriminate.
    + apply IH. intros pre x post Heq Hpost.
      apply (H (c :: pre) x post); [rewrite Heq; reflexivity | exact Hpost].
Qed.

(** X6. Phase A is idempotent: run on its own output it returns that
    output unchanged. *)
Theorem X6_phase_a_idempotent (cfg : config) (fuel : nat)
    (chunks final_chunks : list AudioSegment) :
  phase_a cfg fuel chunks = Returned final_chunks ->
  forall fuel', (length final_chunks < fuel')%nat ->
                phase_a cfg fuel' final_chunks = Returned final_chunks.
Proof.
  intros H fuel' Hfuel. apply phase_a_sound in H.
  destruct (phase_a_total cfg final_chunks Hfuel) as (again & Hret & Hmf).
  rewrite Hret. f_equal. apply (MergeForward_det Hmf).
  apply MergeForward_fixed. apply (MergeForward_min H).
Qed.

Lemma X6_phase_a_idempotent_witness :
  phase_a default_config 3 [tone 1 1000 ++ tone 2 2500; tone 3 500]
  = Returned [tone 1 1000 ++ tone 2 2500; tone 3 500].
Proof.
  apply (@X6_phase_a_idempotent default_config 4
           [tone 1 1000; tone 2 2500; tone 3 500]).
  - vm_compute. reflexivity.
  - simpl. lia.
Defined.

(** X7. Phase B is idempotent on non-empty chunks: run on its own output
    it returns that output unchanged, at the first pass over the list. *)
Theorem X7_phase_b_idempotent (cfg : config) (fuel : nat)
    (final_chunks out : list AudioSegment) :
  Forall (fun c => 0 < len c) final_chunks ->
  phase_b cfg fuel final_chunks = Returned out ->
  forall fuel', phase_b cfg fuel' out = Returned out.
Proof.
  intros Hne H fuel'. unfold phase_b in *.
  destruct (split_oversized_sound cfg fuel final_chunks [] H) as (pss & -> & Hsp).
  simpl. apply (@split_oversized_fit cfg fuel' (concat pss) []).
  clear H. induction Hsp as [|c ps final pss [_ Hc] _ IH]; simpl.
  - constructor.
  - inversion Hne as [|? ? Hpos Hne']; subst.
    apply Forall_app. split; [|apply IH; exact Hne'].
    destruct (@SplitOf_bounds _ _ _ (Hc Hpos) Hpos) as [_ Hps].
    eapply Forall_impl; [|exact Hps]. simpl. intros p Hp. lia.
Qed.

Lemma X7_phase_b_idempotent_witness :
  phase_b default_config 0 [tone 1 8000; tone 1 1000; tone 2 3000]
  = Returned [tone 1 8000; tone 1 1000; tone 2 3000].
Proof.
  apply (@X7_phase_b_idempotent default_config 4 [tone 1 9000; tone 2 3000]).
  - repeat constructor.
  - vm_compute. reflexivity.
Defined.

(** ** How long a merged chunk can get *)

Lemma dur_s_app (a b : AudioSegment) : (dur_s (a ++ b) == dur_s a + dur_s b)%Q.
Proof.
  unfold dur_s. rewrite len_app, inject_Z_plus. field.
Qed.

(** The chunk an accumulator ends as is the accumulator itself or ends with
    a consumed segment before which it was still undersized. *)
Lemma Accumulated_last (cfg : config) acc rest m rest' :
  Accumulated cfg acc rest m rest' ->
  m = acc \/
  exists acc' s, m = acc' ++ s /\ In s rest /\ (dur_s acc' < min_chunk_s cfg)%Q.
Proof.
  induction 1 as [acc rest _|acc s rest m rest' Hlt _ IH].
  - left. reflexivity.
  - right. destruct IH as [->|(acc' & s' & -> & Hin & Hlt')].
    + exists acc, s. repeat split; [left; reflexivity | exact Hlt].
    + exists acc', s'. repeat split; [right; exact Hin | exact Hlt'].
Qed.

Lemma Accumulated_suffix (cfg : config) acc rest m rest' :
  Accumulated cfg acc rest m rest' -> incl rest' rest.
Proof.
  intros H. destruct (Accumulated_taken H) as (taken & -> & _).
  apply incl_appr. apply incl_refl.
Qed.

Lemma MergeForward_last (cfg : config) chunks out :
  MergeForward cfg chunks out ->
  forall all, incl chunks all ->
    Forall (fun m =>
              In m all \/
              exists acc s, m = acc ++ s /\ In s all /\
                            (dur_s acc < min_chunk_s cfg)%Q) out.
Proof.
  induction 1 as [|s rest out _ _ IH|s rest m rest' out _ Hacc _ IH];
    intros all Hincl.
  - constructor.
  - constructor.
    + left. apply Hincl. left. reflexivity.
    + apply IH. intros x Hx. apply Hincl. right. exact Hx.
  - constructor.
    + destruct (Accumulated_last Hacc) as [->|(acc' & s' & -> & Hin & Hlt)].
      * left. apply Hincl. left. reflexivity.
      * right. exists acc', s'. repeat split; [|exact Hlt].
        apply Hincl. right. exact Hin.
    + apply IH. intros x Hx. apply Hincl. right.
      apply (Accumulated_suffix Hacc). exact Hx.
Qed.

(** X8. Merging stops as early as it can: every chunk of Phase A is an
    input segment as it was, or ends with an input segment [s] before which
    it was still undersized, so it lasts less than [min_chunk_s] plus the
    duration of [s]. *)
Theorem X8_merged_chunk_bound (cfg : config) (fuel : nat)
    (chunks final_chunks : list AudioSegment) :
  phase_a cfg fuel chunks = Returned final_chunks ->
  Forall (fun m =>
            In m chunks \/
            exists acc s,
              m = acc ++ s /\ In s chunks /\
              (dur_s acc < min_chunk_s cfg)%Q /\
              (dur_s m < min_chunk_s cfg + dur_s s)%Q) final_chunks.
Proof.
  intros H. apply phase_a_sound in H.
  eapply Forall_impl; [|apply (MergeForward_last H (incl_refl chunks))].
  simpl. intros m [Hin|(acc & s & -> & Hin & Hlt)]; [left; exact Hin|].
  right. exists acc, s. repeat split; try assumption.
  rewrite dur_s_app. apply Qplus_lt_l. exact Hlt.
Qed.

Lemma X8_merged_chunk_bound_witness :
  Forall (fun m =>
            In m [tone 1 1000; tone 2 2500; tone 3 500] \/
            exists acc s,
              m = acc ++ s /\ In s [tone 1 1000; tone 2 2500; tone 3 500] /\
              (dur_s acc < min_chunk_s default_config)%Q /\
              (dur_s m < min_chunk_s default_config + dur_s s)%Q)
         [tone 1 1000 ++ tone 2 2500; tone 3 500].
Proof.
  apply (@X8_merged_chunk_bound default_config 4).
  vm_compute. reflexivity.
Defined.

(** ** The names of the exported files *)

Lemma string_length_append (a b : string) :
  String.length (a ++ b) = (String.length a + String.length b)%nat.
Proof. induction a as [|ch a IH]; simpl; [reflexivity | rewrite IH; reflexivity]. Qed.

Lemma string_append_cancel_l (a x y : string) :
  (a ++ x = a ++ y)%string -> x = y.
Proof.
  induction a as [|ch a IH]; simpl; intros H; [exact H|].
  injection H as H. apply IH. exact H.
Qed.

Lemma string_append_cancel_r (s x y : string) :
  (x ++ s = y ++ s)%string -> x = y.
Proof.
  revert y. induction x as [|ch x IH]; intros [|ch' y] H; simpl in H.
  - reflexivity.
  - apply (f_equal String.length) in H. simpl in H.
    rewrite string_length_append in H. lia.
  - apply (f_equal String.length) in H. simpl in H.
    rewrite string_length_append in H. lia.
  - injection H as -> H. f_equal. apply IH. exact H.
Qed.

Lemma zeros_length (k : nat) : String.length (zeros k) = k.
Proof. induction k as [|k IH]; simpl; [reflexivity | rewrite IH; reflexivity]. Qed.

Lemma uint_of_string_zeros (k : nat) (s : string) (d : uint) :
  NilEmpty.uint_of_string s = Some d ->
  exists d', NilEmpty.uint_of_string (zeros k ++ s) = Some d' /\
             Nat.of_uint d' = Nat.of_uint d.
Proof.
  intros H. induction k as [|k (d' & Hd' & Heq)]; simpl.
  - exists d. split; [exact H | reflexivity].
  - rewrite Hd'. exists (D0 d'). split; [reflexivity | exact Heq].
Qed.

Lemma str_of_nat_nonempty (n : nat) : str_of_nat n <> EmptyString.
Proof.
  unfold str_of_nat. intros H.
  pose proof (NilEmpty.usu (Nat.to_uint n)) as Hu. rewrite H in Hu.
  simpl in Hu. injection Hu as Hu.
  pose proof (Unsigned.of_to n) as Hn. rewrite <- Hu in Hn. simpl in Hn.
  subst n. discriminate.
Qed.

Lemma parse_format_03d (idx : nat) : parse_nat (format_03d idx) = Some idx.
Proof.
  unfold parse_nat, format_03d.
  destruct (@uint_of_string_zeros (3 - String.length (str_of_nat idx))
              (str_of_nat idx) (Nat.to_uint idx) (NilEmpty.usu _))
    as (d' & Hd' & Heq).
  assert (Hz : NilZero.uint_of_string
                 (zeros (3 - String.length (str_of_nat idx)) ++ str_of_nat idx)
               = Some d').
  { rewrite <- Hd'. unfold NilZero.uint_of_string.
    destruct (zeros (3 - String.length (str_of_nat idx)) ++ str_of_nat idx)%string
      eqn:E; [|reflexivity].
    exfalso. apply (f_equal String.length) in E.
    rewrite string_length_append in E. simpl in E.
    pose proof (str_of_nat_nonempty idx) as Hne.
    destruct (str_of_nat idx); [contradiction | simpl in E; lia]. }
  rewrite Hz. simpl. rewrite Heq, Unsigned.of_to. reflexivity.
Qed.

Lemma chunk_name_inj (basename : string) (i j : nat) :
  chunk_name basename i = chunk_name basename j -> i = j.
Proof.
  unfold chunk_name. intros H.
  apply string_append_cancel_l in H. apply string_append_cancel_l in H.
  apply string_append_cancel_r in H.
  pose proof (parse_format_03d i) as Hi. rewrite H, parse_format_03d in Hi.
  injection Hi as ->. reflexivity.
Qed.

(** X9. The index field of a file name reads back as the index.  It is at
    least three characters wide, and exactly three up to index 999. *)
Theorem X9_index_field (idx : nat) :
  parse_nat (format_03d idx) = Some idx /\
  (3 <= String.length (format_03d idx))%nat /\
  ((idx < 1000)%nat -> String.length (format_03d idx) = 3%nat).
Proof.
  split; [apply parse_format_03d|].
  assert (Hlen : String.length (format_03d idx)
                 = Nat.max 3 (String.length (str_of_nat idx))).
  { unfold format_03d. cbv zeta. rewrite string_length_append, zeros_length. lia. }
  split; [lia|]. intros Hlt. rewrite Hlen.
  assert (Hall : forallb (fun n => (String.length (str_of_nat n) <=? 3)%nat)
                         (seq 0 (Z.to_nat 1000)) = true)
    by (vm_compute; reflexivity).
  rewrite forallb_forall in Hall.
  specialize (Hall idx). rewrite Nat.leb_le in Hall.
  assert (Hin : In idx (seq 0 (Z.to_nat 1000))) by (apply in_seq; lia).
  apply Hall in Hin. lia.
Qed.

Lemma X9_index_field_witness : String.length (format_03d 7) = 3%nat.
Proof.
  apply (proj2 (proj2 (X9_index_field 7))). lia.
Defined.

(** X10. When the function returns, the files it has written are numbered
    1, 2, ... in the order of the chunks, hold those chunks, and have
    pairwise distinct names: no export overwrites another. *)
Theorem X10_exported_files_distinct
    (split_on_silence : AudioSegment -> list AudioSegment)
    (cfg : config) (fuel : nat) (audio : AudioSegment)
    (exported : list (nat * AudioSegment)) (basename : string) :
  split_by_silence_and_chunk split_on_silence cfg fuel audio = Returned exported ->
  map fst exported = seq 1 (length exported) /\
  map snd (exported_files basename exported) = map snd exported /\
  NoDup (map fst (exported_files basename exported)).
Proof.
  intros H.
  destruct (@split_by_silence_and_chunk_inv _ _ _ _ _ H) as (processed & _ & ->).
  assert (Hfst : map fst (enumerate 1 processed)
                 = seq 1 (length (enumerate 1 processed))).
  { rewrite map_fst_enumerate. f_equal.
    rewrite <- (map_snd_enumerate processed 1) at 1. rewrite length_map. reflexivity. }
  split; [exact Hfst|]. unfold exported_files. rewrite !map_map. simpl.
  split; [reflexivity|].
  rewrite <- (map_map fst (chunk_name basename)), Hfst.
  apply NoDup_map_NoDup_ForallPairs; [|apply seq_NoDup].
  intros i j _ _ Heq. exact (chunk_name_inj _ _ _ Heq).
Qed.

Lemma X10_exported_files_distinct_witness :
  NoDup (map fst (exported_files "abc"
                    [(1%nat, tone 1 8000); (2%nat, tone 1 1000)])).
Proof.
  apply (proj2 (proj2 (@X10_exported_files_distinct whole_waveform default_config 4
                         (tone 1 9000) _ "abc"%string ltac:(vm_compute; reflexivity)))).
Defined.

(** * Further properties of the batch driver *)

Lemma unique_In (l : list string) (u : string) : In u (unique l) <-> In u l.
Proof.
  induction l as [|a l IH]; simpl; [tauto|].
  rewrite filter_In, IH, negb_true_iff. split.
  - intros [H|[H _]]; [left; exact H | right; exact H].
  - intros [H|H]; [left; exact H|].
    destruct (String.eqb_spec a u) as [Heq|Hneq]; [left; exact Heq|].
    right. split; [exact H | reflexivity].
Qed.

Lemma unique_NoDup (l : list string) : NoDup (unique l).
Proof.
  induction l as [|a l IH]; simpl; constructor.
  - rewrite filter_In, String.eqb_refl. intros [_ H]. discriminate.
  - apply NoDup_filter. exact IH.
Qed.

Lemma dropna_In (cells : list (option string)) (u : string) :
  In u (dropna cells) <-> In (Some u) cells.
Proof.
  induction cells as [|[v|] cells IH]; simpl.
  - tauto.
  - rewrite IH. split; (intros [H|H]; [left; congruence | right; exact H]).
  - rewrite IH. split; [intros H; right; exact H | intros [H|H]; [discriminate|exact H]].
Qed.

Lemma attempted_groups (exn : Type) (urls : list string)
    (groups : list (list (line exn))) :
  Forall2 (fun url g => exists r, g = [Processing url; r] /\ reports url r)
          urls groups ->
  attempted (concat groups) = urls /\
  length (concat groups) = (2 * length urls)%nat.
Proof.
  induction 1 as [|url g urls groups (r & -> & Hr) _ [IHa IHl]]; simpl.
  - split; reflexivity.
  - rewrite IHl. destruct r as [u|n d|u e]; simpl in *; [contradiction| |];
      rewrite IHa; split; (reflexivity || lia).
Qed.

(** X11. An address listed several times in the [url] column is processed
    once, and a missing cell is skipped: the addresses the driver announces
    are without repetition and are exactly the addresses present in the
    column; for each it prints two lines. *)
Theorem X11_each_url_once (World exn : Type) (X : externals World exn)
    (tmp_dir out_root : string) (df : dataframe) (cells : list (option string))
    (w : World) :
  get_column "url" df = Some cells ->
  exists w' printed,
    process_csv X tmp_dir out_root df w = Some (w', printed) /\
    NoDup (attempted printed) /\
    (forall u, In u (attempted printed) <-> In (Some u) cells) /\
    length printed = (2 * length (attempted printed))%nat.
Proof.
  intros Hcol. unfold process_csv. rewrite Hcol.
  destruct (for_urls_spec X tmp_dir out_root (unique (dropna cells)) w [])
    as (w' & groups & -> & Hg).
  destruct (attempted_groups Hg) as [Ha Hl].
  exists w', (concat groups). simpl. rewrite Ha.
  split; [reflexivity|]. split; [apply unique_NoDup|].
  split; [|exact Hl].
  intros u. rewrite unique_In. apply dropna_In.
Qed.

Lemma X11_each_url_once_witness :
  exists w' printed,
    process_csv demo_externals "tmp" "out" demo_dataframe 0%nat
    = Some (w', printed) /\
    NoDup (attempted printed) /\
    (forall u, In u (attempted printed) <->
               In (Some u) [Some "a"; None; Some "bad"; Some "a"; Some "c"]%string) /\
    length printed = (2 * length (attempted printed))%nat.
Proof.
  apply (@X11_each_url_once nat string demo_externals "tmp" "out" demo_dataframe).
  reflexivity.
Defined.

(** X12. When the WAV file of a download is already there, the conversion
    is not run: the [try] block behaves the same whatever [convert_to_wav]
    would do. *)
Theorem X12_existing_wav_not_converted (World exn : Type)
    (X : externals World exn) (tmp_dir out_root url downloaded : string)
    (w w1 : World) :
  download_audio X url (path_join X tmp_dir "downloads") w = (inl downloaded, w1) ->
  path_exists X (splitext_root X downloaded ++ ".wav")%string w1 = true ->
  forall convert,
    try_body (with_convert X convert) tmp_dir out_root url w
    = try_body X tmp_dir out_root url w.
Proof.
  intros Hd Hex convert. unfold try_body. simpl. rewrite Hd, Hex. reflexivity.
Qed.

Lemma X12_existing_wav_not_converted_witness :
  try_body (with_convert
              (with_utils demo_system (fun _ _ w => (inl [], w))
                          (fun p => p) (fun p => p))
              (fun _ _ w => (inr (ValueError "unused"), w)))
           "tmp" "out" "https://youtu.be/abc" 0%nat
  = try_body (with_utils demo_system (fun _ _ w => (inl [], w))
                         (fun p => p) (fun p => p))
             "tmp" "out" "https://youtu.be/abc" 0%nat.
Proof.
  apply (@X12_existing_wav_not_converted _ _ _ "tmp" "out" "https://youtu.be/abc"
           "tmp/downloads/abc.m4a" 0%nat 2%nat); reflexivity.
Defined.

(** * utils.py *)

Lemma download_audio_impl_inv (World other : Type) (Sys : system World other)
    (url out_dir path : string) (w w' : World) :
  download_audio_impl Sys url out_dir w = (inl path, w') ->
  exists id w1,
    id <> EmptyString /\
    extract_info Sys url (os_path_join Sys out_dir "%(id)s.%(ext)s") w1
    = (inl (Some id), w') /\
    path = os_path_join Sys out_dir (id ++ ".m4a")%string /\
    os_path_exists Sys path w' = true.
Proof.
  unfold download_audio_impl. intros H.
  destruct (makedirs Sys out_dir w) as [[[]|e] w1]; [|discriminate].
  destruct (extract_info Sys url _ w1) as [[[id|]|e] w2] eqn:He;
    [| discriminate | discriminate].
  destruct id as [|ch id]; [discriminate|].
  destruct (os_path_exists Sys _ w2) eqn:Hex; simpl in H; [|discriminate].
  injection H as <- <-.
  exists (String ch id), w1. repeat split; [discriminate | exact He | exact Hex].
Qed.

(** X13. [download_audio] returns a path only to a file that exists when it
    returns: the file [<id>.m4a] in the output directory, for the non-empty id
    the extractor reported. *)
Theorem X13_download_returns_existing_file (World other : Type)
    (Sys : system World other) (url out_dir path : string) (w w' : World) :
  download_audio_impl Sys url out_dir w = (inl path, w') ->
  os_path_exists Sys path w' = true /\
  exists id w1,
    id <> EmptyString /\
    extract_info Sys url (os_path_join Sys out_dir "%(id)s.%(ext)s") w1
    = (inl (Some id), w') /\
    path = os_path_join Sys out_dir (id ++ ".m4a")%string.
Proof.
  intros H. destruct (download_audio_impl_inv _ _ _ _ H)
    as (id & w1 & Hne & He & Hp & Hex).
  split; [exact Hex|]. exists id, w1. repeat split; assumption.
Qed.

Lemma X13_download_returns_existing_file_witness :
  os_path_exists demo_system "dl/abc.m4a" 2%nat = true /\
  exists id w1,
    id <> EmptyString /\
    extract_info demo_system "https://youtu.be/abc"
      (os_path_join demo_system "dl" "%(id)s.%(ext)s") w1
    = (inl (Some id), 2%nat) /\
    "dl/abc.m4a"%string = os_path_join demo_system "dl" (id ++ ".m4a")%string.
Proof.
  apply (@X13_download_returns_existing_file nat string demo_system
           "https://youtu.be/abc" "dl" "dl/abc.m4a" 0%nat 2%nat).
  reflexivity.
Defined.

(** X14. [download_audio] fails in one of three ways only: an exception of
    a library it calls, [ValueError] when the extractor reports no id or an
    empty one, or [FileNotFoundError] naming the missing [<id>.m4a]. *)
Theorem X14_download_failures (World other : Type)
    (Sys : system World other) (url out_dir : string) (w w' : World)
    (exc : py_exception other) :
  download_audio_impl Sys url out_dir w = (inr exc, w') ->
  (exists e, exc = Other e) \/
  (exc = ValueError "Could not get video ID" /\
   exists w1 id,
     extract_info Sys url (os_path_join Sys out_dir "%(id)s.%(ext)s") w1
     = (inl id, w') /\ (id = None \/ id = Some EmptyString)) \/
  (exists id,
      let path := os_path_join Sys out_dir (id ++ ".m4a")%string in
      exc = FileNotFoundError ("Downloaded file not found: " ++ path)%string /\
      os_path_exists Sys path w' = false).
Proof.
  unfold download_audio_impl. intros H.
  destruct (makedirs Sys out_dir w) as [[[]|e] w1].
  - destruct (extract_info Sys url _ w1) as [[[id|]|e] w2] eqn:He.
    + destruct id as [|ch id].
      * injection H as <- <-. right. left. split; [reflexivity|].
        exists w1, (Some EmptyString). split; [exact He | right; reflexivity].
      * destruct (os_path_exists Sys _ w2) eqn:Hex; simpl in H; [discriminate|].
        injection H as <- <-. right. right. exists (String ch id).
        split; [reflexivity | exact Hex].
    + injection H as <- <-. right. left. split; [reflexivity|].
      exists w1, None. split; [exact He | left; reflexivity].
    + injection H as <- <-. left. exists e. reflexivity.
  - injection H as <- <-. left. exists e. reflexivity.
Qed.

Lemma X14_download_failures_witness :
  (exists e : string, ValueError "Could not get video ID" = Other e) \/
  (@ValueError string "Could not get video ID" = ValueError "Could not get video ID" /\
   exists w1 id,
     extract_info demo_system "https://example.org/x"
       (os_path_join demo_system "dl" "%(id)s.%(ext)s") w1
     = (inl id, 2%nat) /\ (id = None \/ id = Some EmptyString)) \/
  (exists id,
      let path := os_path_join demo_system "dl" (id ++ ".m4a")%string in
      @ValueError string "Could not get video ID"
      = FileNotFoundError ("Downloaded file not found: " ++ path)%string /\
      os_path_exists demo_system path 2%nat = false).
Proof.
  apply (@X14_download_failures nat string demo_system
           "https://example.org/x" "dl" 0%nat 2%nat).
  reflexivity.
Defined.

(** ** The helpers inside the driver *)

(** X15. With the helpers of utils.py in place, a [try] block that
    completes has segmented the file [<root>.wav] of the download, whether
    the conversion ran (and [ffmpeg] returned zero) or was skipped because
    the file was there.  The download is [<id>.m4a] for the id the extractor
    reported, the output folder is named after that [.wav] file, and the
    count printed is the number of paths the segmentation returned. *)
Theorem X15_segments_wav_of_download (World other : Type)
    (Sys : system World other)
    (segment : string -> string -> World
               -> (list string + py_exception other) * World)
    (splitext stem : string -> string)
    (tmp_dir out_root url out_dir : string) (n : nat) (w w' : World) :
  try_body (with_utils Sys segment splitext stem) tmp_dir out_root url w
  = (inl (n, out_dir), w') ->
  exists id w0 w1 w2 exported,
    id <> EmptyString /\
    extract_info Sys url
      (os_path_join Sys (os_path_join Sys tmp_dir "downloads") "%(id)s.%(ext)s") w0
    = (inl (Some id), w1) /\
    let downloaded :=
      os_path_join Sys (os_path_join Sys tmp_dir "downloads") (id ++ ".m4a")%string in
    let wav_out := (splitext downloaded ++ ".wav")%string in
    (os_path_exists Sys wav_out w1 = true /\ w2 = w1 \/
     os_path_exists Sys wav_out w1 = false /\
     run_process Sys (ffmpeg_cmd downloaded wav_out) w1 = (inl 0, w2)) /\
    out_dir = os_path_join Sys out_root (stem wav_out) /\
    segment wav_out out_dir w2 = (inl exported, w') /\
    n = length exported.
Proof.
  unfold try_body. simpl. intros H.
  destruct (download_audio_impl Sys url _ w) as [[d|e] w1] eqn:Hd; [|discriminate].
  destruct (download_audio_impl_inv _ _ _ _ Hd) as (id & w0 & Hne & He & Hp & _).
  exists id, w0, w1. cbv zeta. rewrite <- Hp.
  destruct (os_path_exists Sys (splitext d ++ ".wav")%string w1) eqn:Hex.
  - destruct (segment _ _ w1) as [[exported|e] w3] eqn:Hs; [|discriminate].
    injection H as <- <- <-.
    exists w1, exported. split; [exact Hne|]. split; [exact He|].
    split; [left; split; reflexivity|]. split; [reflexivity|].
    split; [first [exact Hs | reflexivity] | reflexivity].
  - unfold convert_to_wav_impl in H.
    destruct (run_process Sys _ w1) as [[code|e] w2] eqn:Hrun; [|discriminate].
    destruct (Z.eqb_spec code 0) as [->|_]; [|discriminate].
    destruct (segment _ _ w2) as [[exported|e] w3] eqn:Hs; [|discriminate].
    injection H as <- <- <-.
    exists w2, exported. split; [exact Hne|]. split; [exact He|].
    split; [right; split; [reflexivity | first [exact Hrun | reflexivity]]|].
    split; [reflexivity|].
    split; [first [exact Hs | reflexivity] | reflexivity].
Qed.

Lemma X15_segments_wav_of_download_witness :
  exists (id : string) (w0 w1 w2 : nat) (exported : list string),
    id <> EmptyString /\
    extract_info demo_system "https://youtu.be/abc"
      (os_path_join demo_system (os_path_join demo_system "tmp" "downloads")
         "%(id)s.%(ext)s") w0
    = (inl (Some id), w1) /\
    let downloaded :=
      os_path_join demo_system (os_path_join demo_system "tmp" "downloads")
        (id ++ ".m4a")%string in
    let wav_out := (downloaded ++ ".wav")%string in
    (os_path_exists demo_system wav_out w1 = true /\ w2 = w1 \/
     os_path_exists demo_system wav_out w1 = false /\
     run_process demo_system (ffmpeg_cmd downloaded wav_out) w1 = (inl 0, w2)) /\
    "out/tmp/downloads/abc.m4a.wav"%string
    = os_path_join demo_system "out" wav_out /\
    (@inl (list string) (py_exception string)
        [wav_out; "out/tmp/downloads/abc.m4a.wav"%string], w2)
    = (inl exported, 2%nat) /\
    2%nat = length exported.
Proof.
  apply (@X15_segments_wav_of_download nat string demo_system
           (fun wav out_dir w => (inl [wav; out_dir], w)) (fun p => p) (fun p => p)
           "tmp" "out" "https://youtu.be/abc" "out/tmp/downloads/abc.m4a.wav"
           2%nat 0%nat 2%nat).
  reflexivity.
Defined.

(** X16. With the helpers of utils.py in place, when [ffmpeg] ends with a
    return code other than zero, the driver reports [CalledProcessError] with
    that code and command for the address, does not segment anything for it,
    and goes on with the remaining addresses from the state [ffmpeg] left. *)
Theorem X16_ffmpeg_failure_reported (World other : Type)
    (Sys : system World other)
    (segment : string -> string -> World
               -> (list string + py_exception other) * World)
    (splitext stem : string -> string)
    (tmp_dir out_root url downloaded : string) (code : Z) (w w1 w2 : World) :
  let X := with_utils Sys segment splitext stem in
  let wav_out := (splitext downloaded ++ ".wav")%string in
  download_audio_impl Sys url (os_path_join Sys tmp_dir "downloads") w
  = (inl downloaded, w1) ->
  os_path_exists Sys wav_out w1 = false ->
  run_process Sys (ffmpeg_cmd downloaded wav_out) w1 = (inl code, w2) ->
  code <> 0 ->
  forall rest printed,
    for_urls X tmp_dir out_root (url :: rest) (w, printed)
    = for_urls X tmp_dir out_root rest
        (w2, printed ++ [Processing url;
                         ErrorFor url (CalledProcessError code
                                         (ffmpeg_cmd downloaded wav_out))]).
Proof.
  cbv zeta. intros Hd Hex Hrun Hcode rest printed.
  apply for_urls_failure. unfold try_body. simpl.
  rewrite Hd, Hex. unfold convert_to_wav_impl. rewrite Hrun.
  destruct (Z.eqb_spec code 0) as [Heq|_]; [contradiction | reflexivity].
Qed.

Lemma X16_ffmpeg_failure_reported_witness :
  let X := with_utils failing_system (fun _ _ w => (inl [], w))
                      (fun p => p) (fun p => p) in
  for_urls X "tmp" "out" ["https://youtu.be/abc"; "next"]%string (0%nat, [])
  = for_urls X "tmp" "out" ["next"]%string
      (3%nat,
       [Processing "https://youtu.be/abc";
        ErrorFor "https://youtu.be/abc"
          (CalledProcessError 1
             (ffmpeg_cmd "tmp/downloads/abc.m4a" "tmp/downloads/abc.m4a.wav"))]%string).
Proof.
  cbv zeta.
  apply (@X16_ffmpeg_failure_reported nat string failing_system
           (fun _ _ w => (inl [], w)) (fun p => p) (fun p => p)
           "tmp" "out" "https://youtu.be/abc" "tmp/downloads/abc.m4a"
           1 0%nat 2%nat 3%nat);
    [reflexivity | reflexivity | reflexivity | discriminate].
Defined.

(** * The configuration in binary64 *)

(** ** Phase A *)

(** For any amount of fuel the inner loop either is still running, and then
    the fuel was no more than the number of chunks left, or it has returned
    what [FAccumulated] describes.  It never raises. *)
Lemma f_merge_loop_spec (cfg : float_config) (chunks : list AudioSegment)
    (fuel : nat) :
  forall (j : nat) (merged : AudioSegment),
    (j <= length chunks)%nat ->
    (f_merge_loop cfg fuel chunks j merged = OutOfFuel /\
     (fuel <= length chunks - j)%nat)
    \/
    (exists j' m,
        f_merge_loop cfg fuel chunks j merged = Returned (j', m) /\
        (j <= j' <= length chunks)%nat /\
        FAccumulated cfg merged (skipn j chunks) m (skipn j' chunks)).
Proof.
  induction fuel as [|fuel IH]; intros j merged Hj; simpl.
  - left. split; [reflexivity | lia].
  - destruct (Nat.ltb_spec j (length chunks)) as [Hlt|Hge]; simpl.
    + destruct (f_undersized cfg merged) eqn:Hu.
      * destruct (getitem_in_range chunks Hlt) as (c & Hc & Hskip).
        rewrite Hc. simpl.
        destruct (IH (S j) (merged ++ c)) as [[Ho Hf]|(j' & m & Hr & Hj' & Hacc)];
          [lia| |].
        -- left. split; [exact Ho | lia].
        -- right. exists j', m. split; [exact Hr|]. split; [lia|].
           rewrite Hskip. apply facc_append; [exact Hu | exact Hacc].
      * right. exists j, merged. split; [reflexivity|]. split; [lia|].
        apply facc_stop. left. exact Hu.
    + right. exists j, merged. split; [reflexivity|]. split; [lia|].
      apply facc_stop. right. apply skipn_all2. lia.
Qed.

Lemma f_merge_forward_spec (cfg : float_config) (chunks : list AudioSegment)
    (fuel : nat) :
  forall (i : nat) (final_chunks : list AudioSegment),
    (i <= length chunks)%nat ->
    (f_merge_forward cfg fuel chunks i final_chunks = OutOfFuel /\
     (fuel <= length chunks - i)%nat)
    \/
    (exists out,
        f_merge_forward cfg fuel chunks i final_chunks
        = Returned (final_chunks ++ out) /\
        FMergeForward cfg (skipn i chunks) out).
Proof.
  induction fuel as [|fuel IH]; intros i final_chunks Hi; simpl.
  - left. split; [reflexivity | lia].
  - destruct (Nat.ltb_spec i (length chunks)) as [Hlt|Hge].
    + destruct (getitem_in_range chunks Hlt) as (c & Hc & Hskip).
      rewrite Hc. simpl.
      destruct (f_meets_min cfg c) eqn:Hm.
      * destruct (IH (S i) (final_chunks ++ [c])) as [[Ho Hf]|(out & Hr & Hmf)];
          [lia| |].
        -- left. split; [exact Ho | lia].
        -- right. exists (c :: out). rewrite Hr, <- app_assoc. split; [reflexivity|].
           rewrite Hskip. apply fmf_emit; assumption.
      * destruct (f_merge_loop_spec cfg chunks fuel (j:=S i) c)
          as [[Ho Hf]|(j' & m & Hr & Hj' & Hacc)]; [lia| |].
        -- left. rewrite Ho. simpl. split; [reflexivity | lia].
        -- rewrite Hr. simpl.
           destruct (IH j' (final_chunks ++ [m])) as [[Ho Hf]|(out & Hr' & Hmf)];
             [lia| |].
           ++ left. split; [exact Ho | lia].
           ++ right. exists (m :: out). rewrite Hr', <- app_assoc.
              split; [reflexivity|].
              rewrite Hskip. eapply fmf_merge; eassumption.
    + right. exists []. rewrite app_nil_r. split; [reflexivity|].
      rewrite skipn_all2 by lia. apply fmf_done.
Qed.

Lemma f_phase_a_total (cfg : float_config) (chunks : list AudioSegment)
    (fuel : nat) :
  (length chunks < fuel)%nat ->
  exists final_chunks,
    f_phase_a cfg fuel chunks = Returned final_chunks /\
    FMergeForward cfg chunks final_chunks.
Proof.
  intros Hf. unfold f_phase_a.
  destruct (f_merge_forward_spec cfg chunks fuel (i:=0) [])
    as [[_ Hle]|(out & Hr & Hmf)]; [lia|lia|].
  exists out. split; assumption.
Qed.

Lemma f_phase_a_sound (cfg : float_config) (chunks : list AudioSegment)
    (fuel : nat) (final_chunks : list AudioSegment) :
  f_phase_a cfg fuel chunks = Returned final_chunks ->
  FMergeForward cfg chunks final_chunks.
Proof.
  unfold f_phase_a. intros H.
  destruct (f_merge_forward_spec cfg chunks fuel (i:=0) [])
    as [[Ho _]|(out & Hr & Hmf)]; [lia|congruence|].
  rewrite Hr in H. injection H as <-. exact Hmf.
Qed.

Lemma f_phase_a_no_raise (cfg : float_config) (fuel : nat)
    (chunks : list AudioSegment) (e : error) :
  f_phase_a cfg fuel chunks <> Raised e.
Proof.
  unfold f_phase_a. intros H.
  destruct (f_merge_forward_spec cfg chunks fuel (i:=0) [])
    as [[Ho _]|(out & Hr & _)]; [lia|congruence|congruence].
Qed.

Lemma FAccumulated_taken (cfg : float_config) acc rest m rest' :
  FAccumulated cfg acc rest m rest' ->
  exists taken, rest = taken ++ rest' /\ m = acc ++ concat taken.
Proof.
  induction 1 as [acc rest _|acc s rest m rest' _ _ (taken & Hrest & Hm)].
  - exists []. simpl. rewrite app_nil_r. split; reflexivity.
  - exists (s :: taken). simpl. subst rest. split; [reflexivity|].
    rewrite Hm, <- app_assoc. reflexivity.
Qed.

Lemma FAccumulated_stop (cfg : float_config) acc rest m rest' :
  FAccumulated cfg acc rest m rest' ->
  f_undersized cfg m = false \/ rest' = [].
Proof. induction 1; assumption. Qed.

Lemma FAccumulated_det (cfg : float_config) acc rest m1 r1 :
  FAccumulated cfg acc rest m1 r1 ->
  forall m2 r2, FAccumulated cfg acc rest m2 r2 -> m1 = m2 /\ r1 = r2.
Proof.
  induction 1 as [acc rest Hstop|acc s rest m rest' Hu _ IH]; intros m2 r2 H2.
  - inversion H2; subst.
    + split; reflexivity.
    + destruct Hstop as [Hf|Hnil]; [congruence | discriminate].
  - inversion H2; subst.
    + destruct H as [Hf|Hnil]; [congruence | discriminate].
    + apply IH. assumption.
Qed.

Lemma FMergeForward_det (cfg : float_config) chunks out1 :
  FMergeForward cfg chunks out1 ->
  forall out2, FMergeForward cfg chunks out2 -> out1 = out2.
Proof.
  induction 1 as [|s rest out Hm _ IH|s rest m rest' out Hm Hacc _ IH];
    intros out2 H2; inversion H2; subst.
  - reflexivity.
  - f_equal. apply IH. assumption.
  - congruence.
  - congruence.
  - destruct (FAccumulated_det Hacc H3) as [-> ->].
    f_equal. apply IH. assumption.
Qed.

Lemma FMergeForward_groups (cfg : float_config) chunks out :
  FMergeForward cfg chunks out ->
  exists groups : list (list AudioSegment),
    concat groups = chunks /\
    Forall (fun g => g <> []) groups /\
    out = map (@concat frame) groups.
Proof.
  induction 1 as [|s rest out _ _ (groups & Hc & Hne & Ho)
                  |s rest m rest' out _ Hacc _ (groups & Hc & Hne & Ho)].
  - exists []. repeat split. constructor.
  - exists ([s] :: groups). simpl. rewrite Hc, Ho, app_nil_r.
    repeat split. constructor; [discriminate | exact Hne].
  - destruct (FAccumulated_taken Hacc) as (taken & Hrest & Hm).
    exists ((s :: taken) :: groups). simpl. rewrite Hc, Ho, Hrest, Hm.
    repeat split. constructor; [discriminate | exact Hne].
Qed.

(** Every emitted chunk but the last one has passed a test of the loops:
    [dur_s >= min_chunk_s] held, or [len(merged)/1000.0 < min_chunk_s] did
    not. *)
Lemma FMergeForward_passed (cfg : float_config) chunks out :
  FMergeForward cfg chunks out ->
  forall pre c post,
    out = pre ++ c :: post -> post <> [] ->
    f_meets_min cfg c = true \/ f_undersized cfg c = false.
Proof.
  induction 1 as [|s rest out Hm _ IH|s rest m rest' out _ Hacc Hmf IH];
    intros pre c post Heq Hpost.
  - destruct pre; discriminate.
  - destruct pre as [|p pre]; simpl in Heq; injection Heq as <- Heq.
    + left. exact Hm.
    + eapply IH; eassumption.
  - destruct pre as [|p pre]; simpl in Heq; injection Heq as <- Heq.
    + destruct (FAccumulated_stop Hacc) as [Hu|Hnil]; [right; exact Hu|].
      subst rest'. inversion Hmf; subst. contradiction.
    + eapply IH; eassumption.
Qed.

Lemma FMergeForward_nonempty (cfg : float_config) chunks out :
  FMergeForward cfg chunks out ->
  Forall (fun c => 0 < len c) chunks ->
  Forall (fun c => 0 < len c) out.
Proof.
  induction 1 as [|s rest out _ _ IH|s rest m rest' out _ Hacc _ IH]; intros Hall.
  - constructor.
  - inversion Hall; subst. constructor; [assumption | apply IH; assumption].
  - inversion Hall; subst.
    destruct (FAccumulated_taken Hacc) as (taken & Hrest & Hm).
    constructor.
    + rewrite Hm, len_app. pose proof (len_nonneg (concat taken)). lia.
    + apply IH. rewrite Hrest in H2. exact (Forall_app_r _ _ H2).
Qed.

Lemma FMergeForward_id (cfg : float_config) chunks :
  Forall (fun c => f_meets_min cfg c = true) chunks ->
  FMergeForward cfg chunks chunks.
Proof.
  induction 1; [apply fmf_done | apply fmf_emit; assumption].
Qed.

Lemma FMergeForward_len_bound (cfg : float_config) chunks out :
  FMergeForward cfg chunks out ->
  Forall (fun c => len c <= len (concat chunks)) out.
Proof.
  intros H. destruct (FMergeForward_groups H) as (groups & <- & _ & ->).
  rewrite <- concat_map_concat. apply Forall_forall. intros c Hin.
  apply len_in_concat. exact Hin.
Qed.

Lemma FMergeForward_nonnil (cfg : float_config) chunks out :
  FMergeForward cfg chunks out -> chunks <> [] -> out <> [].
Proof.
  intros Hmf. destruct Hmf; intros Hne; [contradiction | discriminate | discriminate].
Qed.

(** ** Phase B for an integer step *)

Lemma max_ms_any (z : Z) : exists cfg, max_ms cfg = z.
Proof.
  exists {| min_chunk_s := 0%Q; max_chunk_s := (z # 1000)%Q |}.
  unfold max_ms, py_int. simpl. apply Z.quot_mul. discriminate.
Qed.

Lemma f_slice_loop_eq (cfg : config) (c : AudioSegment) (fuel : nat) :
  forall start processed,
    f_slice_loop (max_ms cfg) fuel c start processed
    = slice_loop cfg fuel c start processed.
Proof.
  induction fuel as [|fuel IH]; intros start processed; simpl; [reflexivity|].
  destruct (start <? len c); [apply IH | reflexivity].
Qed.

Lemma f_split_oversized_eq (cfg : config) (fuel : nat)
    (final_chunks : list AudioSegment) :
  forall processed,
    f_split_oversized (max_ms cfg) fuel final_chunks processed
    = split_oversized cfg fuel final_chunks processed.
Proof.
  induction final_chunks as [|c rest IH]; intros processed; simpl; [reflexivity|].
  destruct (len c <=? max_ms cfg); [apply IH|].
  rewrite f_slice_loop_eq.
  destruct (slice_loop cfg fuel c 0 processed); simpl; [apply IH | reflexivity | reflexivity].
Qed.

Lemma f_split_total (z : Z) (fuel : nat)
    (final_chunks processed : list AudioSegment) :
  1 <= z ->
  Forall (fun c => len c < Z.of_nat fuel) final_chunks ->
  exists pss,
    f_split_oversized z fuel final_chunks processed
    = Returned (processed ++ concat pss) /\
    Forall2 (SplitOf z) final_chunks pss.
Proof.
  intros Hz Hall. destruct (max_ms_any z) as (cfg & <-).
  rewrite f_split_oversized_eq. apply split_oversized_total; assumption.
Qed.

Lemma f_split_sound (z : Z) (fuel : nat)
    (final_chunks processed out : list AudioSegment) :
  f_split_oversized z fuel final_chunks processed = Returned out ->
  exists pss,
    out = processed ++ concat pss /\
    Forall2 (fun c ps => concat ps = c /\ (0 < len c -> SplitOf z c ps))
            final_chunks pss.
Proof.
  destruct (max_ms_any z) as (cfg & <-).
  rewrite f_split_oversized_eq. apply split_oversized_sound.
Qed.

Lemma f_split_fit (z : Z) (fuel : nat)
    (final_chunks processed : list AudioSegment) :
  Forall (fun c => len c <= z) final_chunks ->
  f_split_oversized z fuel final_chunks processed
  = Returned (processed ++ final_chunks).
Proof.
  destruct (max_ms_any z) as (cfg & <-).
  rewrite f_split_oversized_eq. apply split_oversized_fit.
Qed.

Lemma f_split_no_raise (z : Z) (fuel : nat)
    (final_chunks processed : list AudioSegment) (e : error) :
  f_split_oversized z fuel final_chunks processed <> Raised e.
Proof.
  destruct (max_ms_any z) as (cfg & <-).
  rewrite f_split_oversized_eq. apply split_oversized_no_raise.
Qed.

(** What [int] raises. *)
Lemma int_of_float_raises (x : float) (e : error) :
  int_of_float x = Raised e -> e = OverflowError \/ e = IntValueError.
Proof.
  unfold int_of_float. destruct (Prim2SF x); intros H; try discriminate;
    injection H as <-; [left | right]; reflexivity.
Qed.

(** ** The two phases *)

Lemma pieces_bounds (z : Z) :
  forall (final_chunks : list AudioSegment) (pss : list (list AudioSegment)),
    Forall2 (SplitOf z) final_chunks pss ->
    Forall (fun c => 0 < len c) final_chunks ->
    Forall (fun p => 0 < len p <= z) (concat pss).
Proof.
  induction 1 as [|c ps final pss Hc _ IH]; intros Hne; simpl.
  - constructor.
  - inversion Hne as [|? ? Hpos Hne']; subst.
    apply Forall_app. split; [|apply IH; exact Hne'].
    destruct (@SplitOf_bounds _ _ _ Hc Hpos) as [_ Hps]. exact Hps.
Qed.

Lemma f_normalize_sound (cfg : float_config) (chunks : list AudioSegment)
    (fuel : nat) (out : list AudioSegment) :
  Forall (fun c => 0 < len c) chunks ->
  f_normalize cfg fuel chunks = Returned out ->
  exists z final_chunks pss,
    f_max_ms cfg = Returned z /\
    FMergeForward cfg chunks final_chunks /\
    Forall (fun c => 0 < len c) final_chunks /\
    Forall2 (SplitOf z) final_chunks pss /\
    out = concat pss.
Proof.
  intros Hne H. unfold f_normalize, f_phase_b in H.
  destruct (f_phase_a cfg fuel chunks) as [final| |] eqn:Ha; simpl in H;
    try discriminate.
  destruct (f_max_ms cfg) as [z| |] eqn:Hz; simpl in H; try discriminate.
  apply f_phase_a_sound in Ha.
  pose proof (FMergeForward_nonempty Ha Hne) as Hfinal.
  destruct (f_split_sound z fuel final [] H) as (pss & -> & Hsp).
  exists z, final, pss. repeat split; try assumption.
  clear - Hfinal Hsp. induction Hsp as [|c ps final pss [_ Hc] _ IH].
  - constructor.
  - inversion Hfinal; subst. constructor; [apply Hc; assumption | apply IH; assumption].
Qed.

Lemma f_normalize_total (cfg : float_config) (z : Z)
    (chunks : list AudioSegment) (fuel : nat) :
  f_max_ms cfg = Returned z -> 1 <= z ->
  (enough_fuel chunks <= fuel)%nat ->
  exists final_chunks pss,
    FMergeForward cfg chunks final_chunks /\
    Forall2 (SplitOf z) final_chunks pss /\
    f_normalize cfg fuel chunks = Returned (concat pss).
Proof.
  intros Hz Hstep Hfuel. unfold enough_fuel in Hfuel. unfold f_normalize, f_phase_b.
  destruct (f_phase_a_total cfg chunks (fuel:=fuel)) as (final & Ha & Hmf); [lia|].
  rewrite Ha, Hz. simpl.
  destruct (@f_split_total z fuel final [] Hstep) as (pss & Hb & Hsp).
  { eapply Forall_impl; [|apply (FMergeForward_len_bound Hmf)].
    intros c Hc. simpl in Hc. unfold len in *. lia. }
  exists final, pss. repeat split; assumption.
Qed.

Lemma f_normalize_raises (cfg : float_config) (fuel : nat)
    (chunks : list AudioSegment) (e : error) :
  f_normalize cfg fuel chunks = Raised e ->
  f_max_ms cfg = Raised e /\ (e = OverflowError \/ e = IntValueError).
Proof.
  unfold f_normalize, f_phase_b. intros H.
  destruct (f_phase_a cfg fuel chunks) as [final| |] eqn:Ha; simpl in H.
  - destruct (f_max_ms cfg) as [z| |] eqn:Hz; simpl in H.
    + exfalso. eapply f_split_no_raise. exact H.
    + injection H as <-. split; [reflexivity|].
      apply (int_of_float_raises _ Hz).
    + discriminate.
  - exfalso. eapply f_phase_a_no_raise. exact Ha.
  - discriminate.
Qed.

Lemma f_phase_b_diverges (cfg : float_config) (z : Z) (c : AudioSegment)
    (rest : list AudioSegment) :
  f_max_ms cfg = Returned z -> z <= 0 -> 0 < len c ->
  forall fuel, f_phase_b cfg fuel (c :: rest) = OutOfFuel.
Proof.
  intros Hz Hstep Hc fuel. unfold f_phase_b. rewrite Hz.
  change (f_split_oversized z fuel (c :: rest) [] = OutOfFuel).
  destruct (max_ms_any z) as (q & Hq). subst z.
  rewrite f_split_oversized_eq. apply phase_b_diverges; assumption.
Qed.

(** C2 (as the code has it).  Let [max_ms = int(max_chunk_s * 1000)], the
    truncated binary64 product, be defined and at least one.  Phase B
    returns, chunk after chunk and in order, the pieces of each chunk of
    Phase A: a chunk of at most [max_ms] milliseconds is kept whole; a longer
    one is cut into consecutive pieces of exactly [max_ms] milliseconds, the
    last piece holding the remainder, of a length in (0, max_ms].  A chunk of
    17.5 s with [max_chunk_s = 8.0] gives pieces of 8.0 s, 8.0 s and 1.5 s. *)
Theorem C2_split_oversized (cfg : float_config) (z : Z)
    (final_chunks : list AudioSegment) :
  f_max_ms cfg = Returned z -> 1 <= z ->
  (forall fuel, (length (concat final_chunks) < fuel)%nat ->
     exists pss,
       Forall2 (SplitOf z) final_chunks pss /\
       f_phase_b cfg fuel final_chunks = Returned (concat pss))
  /\
  (forall c,
      f_max_chunk_s cfg = 8%float -> len c = 17500 ->
      exists fuel p1 p2 p3,
        f_phase_b cfg fuel [c] = Returned [p1; p2; p3] /\
        len p1 = 8000 /\ len p2 = 8000 /\ len p3 = 1500).
Proof.
  intros Hz Hstep.
  assert (Hgen : forall l fuel, (length (concat l) < fuel)%nat ->
            exists pss, Forall2 (SplitOf z) l pss /\
                        f_phase_b cfg fuel l = Returned (concat pss)).
  { intros l fuel Hfuel. unfold f_phase_b. rewrite Hz. simpl.
    destruct (@f_split_total z fuel l [] Hstep) as (pss & Hret & Hsp).
    - apply Forall_forall. intros c Hin. apply len_in_concat in Hin.
      unfold len in *. lia.
    - exists pss. split; assumption. }
  split; [apply Hgen|].
  intros c Hmax Hlen.
  assert (H8000 : z = 8000).
  { unfold f_max_ms in Hz. rewrite Hmax in Hz. vm_compute in Hz.
    injection Hz as <-. reflexivity. }
  subst z. exists (S (length (concat [c]))).
  destruct (Hgen [c] (S (length (concat [c])))) as (pss & Hsp & Hret); [lia|].
  inversion Hsp as [|? ps ? pss' Hc Hrest]; subst. inversion Hrest; subst.
  rewrite Hret. simpl. rewrite app_nil_r.
  destruct Hc as [Hle|init last Hlt Hinit Hlast Hcat]; [lia|].
  pose proof (len_concat_uniform Hinit) as Hin.
  assert (Hsum : len (concat init) + len last = 17500).
  { rewrite <- Hlen, <- Hcat, concat_app, len_app. simpl.
    rewrite app_nil_r. reflexivity. }
  destruct init as [|p1 [|p2 [|p3 init]]]; simpl length in Hin; try lia.
  pose proof (Forall_inv Hinit) as Hp1.
  pose proof (Forall_inv (Forall_inv_tail Hinit)) as Hp2.
  simpl in Hp1, Hp2.
  exists p1, p2, last. simpl. simpl in Hsum.
  rewrite app_nil_r in Hsum. rewrite !len_app in Hsum.
  repeat split; try assumption; try lia.
Qed.

Lemma C2_split_oversized_witness :
  exists fuel p1 p2 p3,
    f_phase_b f_default_config fuel [tone 1 17500] = Returned [p1; p2; p3] /\
    len p1 = 8000 /\ len p2 = 8000 /\ len p3 = 1500.
Proof.
  apply (proj2 (@C2_split_oversized f_default_config 8000 []
                  ltac:(vm_compute; reflexivity) ltac:(lia))).
  - reflexivity.
  - vm_compute. reflexivity.
Defined.

(** With [max_chunk_s = 2.0005] the step is 2000 ms: a chunk of 4.5 s, longer
    than [max_chunk_s], is cut into 2000 ms, 2000 ms and 500 ms, and its first
    piece does not last [max_chunk_s].  With [max_chunk_s = 8.001] the step is
    8000 ms, because the binary64 product is just below 8001: a chunk of 8001
    ms, whose duration [8001 / 1000.0] equals [max_chunk_s], is split.  With
    [max_chunk_s = 0.0005] the step is 0 ms and the loop over a chunk of 1 ms
    does not end. *)
Lemma C2_counterexample :
  (let cfg := {| f_min_chunk_s := 3; f_max_chunk_s := 2.0005 |} in
   PrimFloat.ltb (f_max_chunk_s cfg) (f_dur_s (tone 1 4500)) = true /\
   f_phase_b cfg 4 [tone 1 4500]
   = Returned [tone 1 2000; tone 1 2000; tone 1 500] /\
   PrimFloat.eqb (f_dur_s (tone 1 2000)) (f_max_chunk_s cfg) = false)
  /\
  (let cfg := {| f_min_chunk_s := 3; f_max_chunk_s := 8.001 |} in
   PrimFloat.eqb (f_dur_s (tone 1 8001)) (f_max_chunk_s cfg) = true /\
   f_phase_b cfg 3 [tone 1 8001] = Returned [tone 1 8000; tone 1 1])
  /\
  (let cfg := {| f_min_chunk_s := 3; f_max_chunk_s := 0.0005 |} in
   PrimFloat.ltb (f_max_chunk_s cfg) (f_dur_s (tone 1 1)) = true /\
   f_max_ms cfg = Returned 0 /\
   forall fuel, f_phase_b cfg fuel [tone 1 1] = OutOfFuel).
Proof.
  cbv zeta. split; [|split].
  - split; [|split]; vm_compute; reflexivity.
  - split; vm_compute; reflexivity.
  - split; [|split]; [vm_compute; reflexivity | vm_compute; reflexivity |].
    apply (@f_phase_b_diverges _ 0); [vm_compute; reflexivity | lia | reflexivity].
Qed.

(** C3 (as the code has it).  For non-empty input segments, every chunk the
    two phases return is at most [max_ms = int(max_chunk_s * 1000)]
    milliseconds long; and every returned chunk that is a Phase-A chunk kept
    whole (a group [[c]] of a single piece) and is followed by at least one
    more chunk has passed a test of the merge loops:
    [len/1000.0 >= min_chunk_s] held or [len/1000.0 < min_chunk_s] did not.
    The phases do return when [max_ms] is defined and at least one. *)
Theorem C3_duration_bounds (cfg : float_config) (chunks : list AudioSegment) :
  Forall (fun c => 0 < len c) chunks ->
  (forall z, f_max_ms cfg = Returned z -> 1 <= z ->
             exists fuel out, f_normalize cfg fuel chunks = Returned out)
  /\
  (forall fuel out,
      f_normalize cfg fuel chunks = Returned out ->
      exists z final_chunks pss,
        f_max_ms cfg = Returned z /\
        FMergeForward cfg chunks final_chunks /\
        Forall2 (SplitOf z) final_chunks pss /\
        out = concat pss /\
        Forall (fun p => len p <= z) out /\
        forall p1 c p2,
          pss = p1 ++ [c] :: p2 -> concat p2 <> [] ->
          f_meets_min cfg c = true \/ f_undersized cfg c = false).
Proof.
  intros Hne. split.
  - intros z Hz Hstep. exists (enough_fuel chunks).
    destruct (@f_normalize_total cfg z chunks (enough_fuel chunks) Hz Hstep (le_n _))
      as (final & pss & _ & _ & Hret).
    exists (concat pss). exact Hret.
  - intros fuel out Hret.
    destruct (@f_normalize_sound cfg chunks fuel out Hne Hret)
      as (z & final & pss & Hz & Hmf & Hfinal & Hsp & ->).
    exists z, final, pss.
    split; [exact Hz|]. split; [exact Hmf|]. split; [exact Hsp|].
    split; [reflexivity|]. split.
    + eapply Forall_impl; [|apply (@pieces_bounds z _ _ Hsp Hfinal)].
      simpl. intros p Hp. lia.
    + intros p1 c p2 -> Hp2.
      apply Forall2_app_inv_r in Hsp. destruct Hsp as (f1 & f2' & _ & Hsp2 & ->).
      inversion Hsp2 as [|c' ? f2 ? Hc Hrest]; subst.
      apply SplitOf_single in Hc. subst c'.
      apply (@FMergeForward_passed cfg _ _ Hmf f1 c f2 eq_refl).
      intros ->. inversion Hrest; subst. apply Hp2. reflexivity.
Qed.

Lemma C3_duration_bounds_witness :
  exists z final_chunks pss,
    f_max_ms f_default_config = Returned z /\
    FMergeForward f_default_config [tone 1 4000; tone 2 9000; tone 3 500]
                  final_chunks /\
    Forall2 (SplitOf z) final_chunks pss /\
    [tone 1 4000; tone 2 8000; tone 2 1000; tone 3 500] = concat pss /\
    Forall (fun p => len p <= z)
           [tone 1 4000; tone 2 8000; tone 2 1000; tone 3 500] /\
    forall p1 c p2,
      pss = p1 ++ [c] :: p2 -> concat p2 <> [] ->
      f_meets_min f_default_config c = true \/
      f_undersized f_default_config c = false.
Proof.
  refine (proj2 (@C3_duration_bounds f_default_config
                   [tone 1 4000; tone 2 9000; tone 3 500] _) 10%nat _ _).
  - repeat constructor.
  - vm_compute. reflexivity.
Defined.

(** With [max_chunk_s = 3.9979999999999998] the binary64 product
    [max_chunk_s * 1000] is 3998: a chunk of 3998 ms is returned whole, and it
    lasts longer than [max_chunk_s].  With [min_chunk_s] NaN, which the
    command line accepts, no comparison holds: two segments of 1 s are
    returned as they are, and the first, neither trailing nor split, does not
    satisfy [len/1000.0 >= min_chunk_s]. *)
Lemma C3_counterexample :
  (let cfg := {| f_min_chunk_s := 3; f_max_chunk_s := 3.9979999999999998 |} in
   f_max_ms cfg = Returned 3998 /\
   f_normalize cfg 2 [tone 1 3998] = Returned [tone 1 3998] /\
   PrimFloat.leb (f_dur_s (tone 1 3998)) (f_max_chunk_s cfg) = false)
  /\
  (let cfg := {| f_min_chunk_s := PrimFloat.nan; f_max_chunk_s := 8 |} in
   f_normalize cfg 3 [tone 1 1000; tone 2 1000]
   = Returned [tone 1 1000; tone 2 1000] /\
   PrimFloat.leb (f_min_chunk_s cfg) (f_dur_s (tone 1 1000)) = false).
Proof.
  cbv zeta. split.
  - split; [|split]; vm_compute; reflexivity.
  - split; vm_compute; reflexivity.
Qed.

(** C6 (as the code has it).  On a sequence whose chunks all pass the test
    [len/1000.0 >= min_chunk_s] and are at most
    [max_ms = int(max_chunk_s * 1000)] milliseconds long, the two phases
    return the sequence unchanged. *)
Theorem C6_idempotence (cfg : float_config) (z : Z) (chunks : list AudioSegment) :
  f_max_ms cfg = Returned z ->
  Forall (fun c => f_meets_min cfg c = true /\ len c <= z) chunks ->
  forall fuel, (length chunks < fuel)%nat ->
               f_normalize cfg fuel chunks = Returned chunks.
Proof.
  intros Hz Hall fuel Hfuel. unfold f_normalize, f_phase_b.
  destruct (f_phase_a_total cfg chunks Hfuel) as (final & Hret & Hmf).
  assert (Hid : FMergeForward cfg chunks chunks).
  { apply FMergeForward_id. eapply Forall_impl; [|exact Hall]. simpl. tauto. }
  rewrite (FMergeForward_det Hmf Hid) in Hret. rewrite Hret, Hz.
  change (f_split_oversized z fuel chunks [] = Returned chunks).
  apply (@f_split_fit z fuel chunks []).
  eapply Forall_impl; [|exact Hall]. simpl. tauto.
Qed.

Lemma C6_idempotence_witness :
  f_normalize f_default_config 4 [tone 1 3000; tone 2 8000; tone 3 5000]
  = Returned [tone 1 3000; tone 2 8000; tone 3 5000].
Proof.
  apply (@C6_idempotence f_default_config 8000); [vm_compute; reflexivity | |simpl; lia].
  repeat constructor; vm_compute; (reflexivity || discriminate).
Defined.

(** With [max_chunk_s = 8.001] a chunk of 8001 ms lies within the bounds,
    [3.0 <= 8001/1000.0 <= 8.001] in the arithmetic of the program, and the
    two phases return it cut into 8000 ms and 1 ms. *)
Lemma C6_counterexample :
  let cfg := {| f_min_chunk_s := 3; f_max_chunk_s := 8.001 |} in
  PrimFloat.leb (f_min_chunk_s cfg) (f_dur_s (tone 1 8001)) = true /\
  PrimFloat.leb (f_dur_s (tone 1 8001)) (f_max_chunk_s cfg) = true /\
  f_normalize cfg 3 [tone 1 8001] = Returned [tone 1 8000; tone 1 1].
Proof.
  cbv zeta. split; [|split]; vm_compute; reflexivity.
Qed.

(** ** The whole function *)

Section WholeFunctionFacts.
Variable World : Type.
Variable IO : pydub_io World.

Lemma export_loop_raises (out_dir basename : string) :
  forall items exported w e w',
    export_loop IO out_dir basename items exported w = (Raised e, w') ->
    exists msg, e = LibraryError msg.
Proof.
  induction items as [|[idx chunk] items IH]; intros exported w e w' H; simpl in H.
  - discriminate.
  - destruct (export_wav IO chunk _ w) as [[u|msg] w1].
    + eapply IH. exact H.
    + injection H as <- _. exists msg. reflexivity.
Qed.

Lemma export_loop_ok (out_dir basename : string) :
  (forall chunk path w, exists w', export_wav IO chunk path w = (inl tt, w')) ->
  forall items exported w,
  exists w',
    export_loop IO out_dir basename items exported w
    = (Returned (exported ++
                 map (fun ic => io_join IO out_dir (chunk_name basename (fst ic)))
                     items), w').
Proof.
  intros Hok. induction items as [|[idx chunk] items IH]; intros exported w; simpl.
  - exists w. rewrite app_nil_r. reflexivity.
  - destruct (Hok chunk (io_join IO out_dir (chunk_name basename idx)) w)
      as (w1 & ->).
    destruct (IH (exported ++ [io_join IO out_dir (chunk_name basename idx)]) w1)
      as (w' & ->).
    exists w'. rewrite <- app_assoc. reflexivity.
Qed.

(** The function raises nothing of its own but what [int] raises; anything
    else comes from a library call. *)
Lemma f_split_by_silence_and_chunk_raises (cfg : float_config) (fuel : nat)
    (wav_path out_dir : string) (w w' : World) (e : error) :
  f_split_by_silence_and_chunk IO cfg fuel wav_path out_dir w = (Raised e, w') ->
  e = OverflowError \/ e = IntValueError \/ exists msg, e = LibraryError msg.
Proof.
  unfold f_split_by_silence_and_chunk. intros H.
  destruct (from_wav IO wav_path w) as [[audio|msg] w1].
  - destruct (f_normalize cfg fuel _) as [processed|e'|] eqn:Hn.
    + destruct (io_makedirs IO out_dir w1) as [[u|msg] w2].
      * right. right. eapply export_loop_raises. exact H.
      * injection H as <- _. right. right. exists msg. reflexivity.
    + injection H as <- _.
      destruct (f_normalize_raises _ _ _ Hn) as [_ [He|He]]; [left | right; left];
        exact He.
    + discriminate.
  - injection H as <- _. right. right. exists msg. reflexivity.
Qed.
End WholeFunctionFacts.

(** C4 (as the code has it).  There is no configuration check: with
    [max_chunk_s <= min_chunk_s] the function never raises
    [InvalidConfigError]; what it raises is the [OverflowError] or
    [ValueError] of [int(max_chunk_s * 1000)] or the exception of a library
    call.  When that integer is defined and at least one and the library
    calls succeed, it runs both phases and returns one path per chunk, every
    chunk being non-empty and at most that many milliseconds long. *)
Theorem C4_no_config_validation (World : Type) (IO : pydub_io World)
    (cfg : float_config) (wav_path out_dir : string) (w : World) :
  PrimFloat.leb (f_max_chunk_s cfg) (f_min_chunk_s cfg) = true ->
  (forall fuel e w',
      f_split_by_silence_and_chunk IO cfg fuel wav_path out_dir w = (Raised e, w') ->
      e <> InvalidConfigError /\
      (e = OverflowError \/ e = IntValueError \/ exists msg, e = LibraryError msg))
  /\
  (forall z audio w1 w2,
      f_max_ms cfg = Returned z -> 1 <= z ->
      from_wav IO wav_path w = (inl audio, w1) ->
      io_makedirs IO out_dir w1 = (inl tt, w2) ->
      (forall chunk path w3, exists w4, export_wav IO chunk path w3 = (inl tt, w4)) ->
      exists fuel processed w',
        f_normalize cfg fuel
          (filter (fun c => 0 <? len c) (split_segments IO audio))
        = Returned processed /\
        Forall (fun p => 0 < len p <= z) processed /\
        f_split_by_silence_and_chunk IO cfg fuel wav_path out_dir w
        = (Returned
             (map (fun idx => io_join IO out_dir
                                (chunk_name (io_stem IO wav_path) idx))
                  (seq 1 (length processed))), w')).
Proof.
  intros _. split.
  - intros fuel e w' H.
    pose proof (f_split_by_silence_and_chunk_raises _ _ _ _ _ _ H) as He.
    split; [|exact He].
    destruct He as [->|[->|(msg & ->)]]; discriminate.
  - intros z audio w1 w2 Hz Hstep Hwav Hdir Hexp.
    set (chunks := filter (fun c => 0 <? len c) (split_segments IO audio)).
    destruct (@f_normalize_total cfg z chunks (enough_fuel chunks) Hz Hstep (le_n _))
      as (final & pss & Hmf & Hsp & Hret).
    pose proof (FMergeForward_nonempty Hmf (filter_nonempty _)) as Hfinal.
    destruct (export_loop_ok IO out_dir (io_stem IO wav_path) Hexp
                (enumerate 1 (concat pss)) [] w2) as (w' & Hloop).
    exists (enough_fuel chunks), (concat pss), w'.
    split; [exact Hret|]. split; [apply (@pieces_bounds z _ _ Hsp Hfinal)|].
    unfold f_split_by_silence_and_chunk. rewrite Hwav. fold chunks.
    rewrite Hret, Hdir, Hloop. simpl.
    rewrite <- (map_fst_enumerate (concat pss) 1), map_map. reflexivity.
Qed.

Lemma C4_no_config_validation_witness :
  exists fuel processed w',
    f_normalize {| f_min_chunk_s := 5; f_max_chunk_s := 3 |} fuel
      (filter (fun c => 0 <? len c) (whole_waveform (tone 1 6000)))
    = Returned processed /\
    Forall (fun p => 0 < len p <= 3000) processed /\
    f_split_by_silence_and_chunk (demo_io (tone 1 6000))
      {| f_min_chunk_s := 5; f_max_chunk_s := 3 |} fuel "talk.wav" "out" []
    = (Returned
         (map (fun idx => ("out" ++ "/" ++ chunk_name "talk" idx)%string)
              (seq 1 (length processed))), w').
Proof.
  refine (proj2 (@C4_no_config_validation _ (demo_io (tone 1 6000))
                   {| f_min_chunk_s := 5; f_max_chunk_s := 3 |}
                   "talk.wav" "out" [] _) 3000 (tone 1 6000) [] [] _ _ _ _ _).
  - vm_compute. reflexivity.
  - vm_compute. reflexivity.
  - lia.
  - reflexivity.
  - reflexivity.
  - intros chunk path w3. eexists. reflexivity.
Defined.

(** With [min_chunk_s = 5.0] and [max_chunk_s = 3.0], a WAV file of 6 s
    without silence is not rejected: two files of 3 s are written and their
    paths returned. *)
Lemma C4_counterexample :
  let cfg := {| f_min_chunk_s := 5; f_max_chunk_s := 3 |} in
  PrimFloat.leb (f_max_chunk_s cfg) (f_min_chunk_s cfg) = true /\
  f_split_by_silence_and_chunk (demo_io (tone 1 6000)) cfg 4 "talk.wav" "out" []
  = (Returned ["out/talk_chunk001.wav"; "out/talk_chunk002.wav"]%string,
     [("out/talk_chunk001.wav", 3000); ("out/talk_chunk002.wav", 3000)]%string).
Proof.
  cbv zeta. split; vm_compute; reflexivity.
Qed.

(** C8 (as the code has it).  A zero-length waveform never makes the
    function signal [EmptyInputError]: the raw segments cut out of it are
    zero-length too and the filter drops them.  When
    [int(max_chunk_s * 1000)] is defined and the output directory can be
    made, the function returns the empty list; when the product is infinite
    or NaN, it raises the exception of [int]. *)
Theorem C8_empty_waveform (World : Type) (IO : pydub_io World)
    (cfg : float_config) (fuel : nat) (wav_path out_dir : string)
    (w w1 : World) (audio : AudioSegment) :
  from_wav IO wav_path w = (inl audio, w1) ->
  len audio = 0 ->
  (forall c, In c (split_segments IO audio) -> len c <= len audio) ->
  (0 < fuel)%nat ->
  (forall z w2,
      f_max_ms cfg = Returned z ->
      io_makedirs IO out_dir w1 = (inl tt, w2) ->
      f_split_by_silence_and_chunk IO cfg fuel wav_path out_dir w = (Returned [], w2))
  /\
  (forall e,
      f_max_ms cfg = Raised e ->
      f_split_by_silence_and_chunk IO cfg fuel wav_path out_dir w = (Raised e, w1) /\
      (e = OverflowError \/ e = IntValueError))
  /\
  (forall w',
      f_split_by_silence_and_chunk IO cfg fuel wav_path out_dir w
      <> (Raised EmptyInputError, w')).
Proof.
  intros Hwav Hlen Hsub Hfuel.
  assert (Hchunks : filter (fun c => 0 <? len c) (split_segments IO audio) = []).
  { apply filter_all_empty. intros c Hin. rewrite <- Hlen. apply Hsub. exact Hin. }
  assert (Ha : f_phase_a cfg fuel [] = Returned [])
    by (destruct fuel as [|fuel]; [lia | reflexivity]).
  split; [|split].
  - intros z w2 Hz Hdir. unfold f_split_by_silence_and_chunk.
    rewrite Hwav, Hchunks. unfold f_normalize, f_phase_b. rewrite Ha, Hz. simpl.
    rewrite Hdir. reflexivity.
  - intros e Hz. split; [|apply (int_of_float_raises _ Hz)].
    unfold f_split_by_silence_and_chunk.
    rewrite Hwav, Hchunks. unfold f_normalize, f_phase_b. rewrite Ha, Hz.
    reflexivity.
  - intros w' H.
    destruct (f_split_by_silence_and_chunk_raises _ _ _ _ _ _ H)
      as [He|[He|(msg & He)]]; discriminate.
Qed.

Lemma C8_empty_waveform_witness :
  f_split_by_silence_and_chunk (demo_io []) f_default_config 1 "talk.wav" "out" []
  = (Returned [], []).
Proof.
  refine (proj1 (@C8_empty_waveform _ (demo_io []) f_default_config 1
                   "talk.wav" "out" [] [] [] _ _ _ _) 8000 [] _ _).
  - reflexivity.
  - reflexivity.
  - intros c [<-|[]]. apply Z.le_refl.
  - lia.
  - vm_compute. reflexivity.
  - reflexivity.
Defined.

(** On an empty waveform the function returns the empty list: it does not
    signal [EmptyInputError]. *)
Lemma C8_counterexample :
  len [] = 0 /\
  f_split_by_silence_and_chunk (demo_io []) f_default_config 1 "talk.wav" "out" []
  = (Returned [], []).
Proof.
  split; [reflexivity | vm_compute; reflexivity].
Qed.

(** X1. The subscripts [chunks[i]] and [chunks[j]] are always in range:
    Phase A raises nothing, the loops of Phase B raise nothing, and what the
    function raises is never [IndexError] but the [OverflowError] or
    [ValueError] of [int(max_chunk_s * 1000)] or the exception of a library
    call. *)
Theorem X1_no_index_error (World : Type) (IO : pydub_io World)
    (cfg : float_config) (fuel : nat) :
  (forall chunks e, f_phase_a cfg fuel chunks <> Raised e) /\
  (forall max_ms final_chunks e,
      f_split_oversized max_ms fuel final_chunks [] <> Raised e) /\
  (forall wav_path out_dir w e w',
      f_split_by_silence_and_chunk IO cfg fuel wav_path out_dir w = (Raised e, w') ->
      e <> IndexError /\
      (e = OverflowError \/ e = IntValueError \/ exists msg, e = LibraryError msg)).
Proof.
  split; [|split].
  - intros chunks e. apply f_phase_a_no_raise.
  - intros z final e. apply f_split_no_raise.
  - intros wav_path out_dir w e w' H.
    pose proof (f_split_by_silence_and_chunk_raises _ _ _ _ _ _ H) as He.
    split; [|exact He].
    destruct He as [->|[->|(msg & ->)]]; discriminate.
Qed.

Lemma X1_no_index_error_witness :
  OverflowError <> IndexError /\
  (OverflowError = OverflowError \/ OverflowError = IntValueError \/
   exists msg, OverflowError = LibraryError msg).
Proof.
  refine (proj2 (proj2 (@X1_no_index_error _ (demo_io (tone 1 10))
                          {| f_min_chunk_s := 3; f_max_chunk_s := 1e306 |} 2))
            "talk.wav"%string "out"%string [] OverflowError [] _).
  vm_compute. reflexivity.
Defined.

(** * Phase B at the level of frames *)

Lemma py_slice_in_range (A : Type) (data : list A) (s e : Z) :
  0 <= s <= e -> e <= Z.of_nat (length data) ->
  py_slice data s e = firstn (Z.to_nat (e - s)) (skipn (Z.to_nat s) data) /\
  Z.of_nat (length (py_slice data s e)) = e - s.
Proof.
  intros Hs He. unfold py_slice, py_bound. cbv zeta.
  destruct (Z.ltb_spec s 0) as [?|_]; [lia|].
  destruct (Z.ltb_spec e 0) as [?|_]; [lia|].
  rewrite !Z.min_l by lia. split; [reflexivity|].
  rewrite length_firstn, length_skipn. lia.
Qed.

Section WholeMilliseconds.
Variables (k L : Z) (c : pcm).
Hypothesis Hk : 1 <= k.
Hypothesis HL : pcm_len c = Returned L.
Hypothesis Hcount : frame_count c = k * L.
Hypothesis Hexact :
  forall ms, 0 <= ms <= L -> int_of_float (frames_in c ms) = Returned (k * ms).

Lemma pcm_parse_position_whole (ms : Z) :
  0 <= ms <= L -> pcm_parse_position c ms = Returned (k * ms).
Proof.
  intros Hms. unfold pcm_parse_position.
  destruct (Z.ltb_spec ms 0) as [?|_]; [lia|]. cbn [bind]. apply Hexact. exact Hms.
Qed.

(** On such a segment a slice inside the loop is the frames of the
    milliseconds asked for; nothing is missing. *)
Lemma pcm_getslice_whole (start z : Z) :
  0 <= start -> start < L -> 1 <= z ->
  pcm_getslice c start (start + z)
  = Returned
      {| frame_rate := frame_rate c;
         samples := firstn (Z.to_nat (k * (Z.min (start + z) L - start)))
                           (skipn (Z.to_nat (k * start)) (samples c)) |}.
Proof.
  intros Hs Hlt Hz. unfold pcm_getslice. rewrite HL. cbn [bind]. cbv zeta.
  rewrite (Z.min_l start L) by lia.
  rewrite (pcm_parse_position_whole (ms:=start)) by lia.
  rewrite (pcm_parse_position_whole (ms:=Z.min (start + z) L)) by lia.
  cbn [bind].
  unfold frame_count in Hcount.
  destruct (@py_slice_in_range Z (samples c) (k * start) (k * Z.min (start + z) L))
    as [Hdata Hlen]; [nia | nia |].
  rewrite Hlen, Z.sub_diag. simpl. rewrite Hdata.
  do 3 f_equal. lia.
Qed.

Lemma pcm_slice_loop_whole (z : Z) :
  1 <= z ->
  forall (fuel : nat) (start : Z) (processed : list pcm),
    0 <= start ->
    (pcm_slice_loop z fuel c start processed = OutOfFuel /\
     Z.of_nat fuel <= Z.max 0 (L - start))
    \/
    (exists ps,
        pcm_slice_loop z fuel c start processed = Returned (processed ++ ps) /\
        concat (map samples ps) = skipn (Z.to_nat (k * start)) (samples c) /\
        Forall (fun p => frame_rate p = frame_rate c) ps).
Proof.
  intros Hz. unfold frame_count in Hcount.
  induction fuel as [|fuel IH]; intros start processed Hs; simpl.
  - left. split; [reflexivity | lia].
  - rewrite HL. cbn [bind].
    destruct (Z.ltb_spec start L) as [Hlt|Hge].
    + rewrite pcm_getslice_whole by assumption. cbn [bind].
      set (piece := {| frame_rate := frame_rate c;
                       samples := firstn (Z.to_nat (k * (Z.min (start + z) L - start)))
                                         (skipn (Z.to_nat (k * start)) (samples c)) |}).
      destruct (IH (start + z) (processed ++ [piece]))
        as [[Ho Hf]|(ps & Hret & Hcat & Hrate)]; [lia| |].
      * left. split; [exact Ho | lia].
      * right. exists (piece :: ps). rewrite <- app_assoc in Hret.
        split; [exact Hret|]. split.
        -- simpl. rewrite Hcat.
           destruct (Z.le_gt_cases L (start + z)) as [Hend|Hmore].
           ++ rewrite Z.min_r by lia.
              rewrite (skipn_all2 (n:=Z.to_nat (k * (start + z)))) by nia.
              rewrite app_nil_r. apply firstn_all2.
              rewrite length_skipn. nia.
           ++ rewrite Z.min_l by lia.
              replace (Z.to_nat (k * (start + z)))
                with (Z.to_nat (k * (start + z - start)) + Z.to_nat (k * start))%nat
                by nia.
              rewrite <- skipn_skipn. apply firstn_skipn.
        -- constructor; [reflexivity | exact Hrate].
    + right. exists []. rewrite app_nil_r. split; [reflexivity|].
      split; [|constructor]. simpl. symmetry. apply skipn_all2. nia.
Qed.
End WholeMilliseconds.

(** With a step of zero or less the slicing loop over a segment of positive
    length never returns. *)
Lemma pcm_slice_loop_no_return (z L : Z) (c : pcm) :
  pcm_len c = Returned L -> z <= 0 -> 0 < L ->
  forall (fuel : nat) (start : Z) (processed out : list pcm),
    start <= 0 ->
    pcm_slice_loop z fuel c start processed <> Returned out.
Proof.
  intros HL Hz Hpos. induction fuel as [|fuel IH]; intros start processed out Hs; simpl.
  - discriminate.
  - rewrite HL. cbn [bind].
    destruct (Z.ltb_spec start L) as [_|Hge]; [|lia].
    destruct (pcm_getslice c start (start + z)) as [piece|e|]; cbn [bind];
      [apply IH; lia | discriminate | discriminate].
Qed.

(** Whatever Phase B returns on such segments consists of one group of
    pieces per segment, and the samples of each group, put end to end, are
    the samples of the segment. *)
Lemma pcm_split_oversized_sound (k z : Z) (fuel : nat) :
  forall (final_chunks processed out : list pcm),
    Forall (whole_ms k) final_chunks ->
    pcm_split_oversized z fuel final_chunks processed = Returned out ->
    exists pss,
      out = processed ++ concat pss /\
      Forall2 (fun c ps => concat (map samples ps) = samples c /\
                           Forall (fun p => frame_rate p = frame_rate c) ps)
              final_chunks pss.
Proof.
  induction final_chunks as [|c rest IH]; intros processed out Hall H; simpl in H.
  - injection H as <-. exists []. simpl. rewrite app_nil_r.
    split; [reflexivity | constructor].
  - inversion Hall as [|? ? Hc Hrest]; subst.
    destruct Hc as (Hk & L & HL & Hcount & Hexact).
    rewrite HL in H. cbn [bind] in H.
    destruct (Z.leb_spec L z) as [Hle|Hgt].
    + destruct (IH _ _ Hrest H) as (pss & -> & Hsp).
      exists ([c] :: pss). simpl. rewrite <- app_assoc.
      split; [reflexivity|]. constructor; [|exact Hsp].
      split; [apply app_nil_r | constructor; [reflexivity | constructor]].
    + destruct (pcm_slice_loop z fuel c 0 processed) as [processed'| |] eqn:Hloop;
        cbn [bind] in H; try discriminate.
      destruct (IH _ _ Hrest H) as (pss & -> & Hsp).
      destruct (Z.le_gt_cases 1 z) as [Hz|Hz].
      * destruct (@pcm_slice_loop_whole k L c Hk HL Hcount Hexact z Hz fuel 0 processed)
          as [[Ho _]|(ps & Hret & Hcat & Hrate)]; [lia|congruence|].
        rewrite Hret in Hloop. injection Hloop as <-.
        exists (ps :: pss). simpl. rewrite <- app_assoc.
        split; [reflexivity|]. constructor; [|exact Hsp].
        split; [|exact Hrate]. rewrite Hcat. rewrite Z.mul_0_r. reflexivity.
      * destruct (Z.le_gt_cases L 0) as [Hnil|Hpos].
        -- destruct fuel as [|fuel]; simpl in Hloop; [discriminate|].
           rewrite HL in Hloop. cbn [bind] in Hloop.
           destruct (Z.ltb_spec 0 L) as [?|_]; [lia|].
           injection Hloop as <-.
           exists ([] :: pss). simpl. split; [reflexivity|].
           constructor; [|exact Hsp]. split; [|constructor].
           unfold frame_count in Hcount.
           destruct (samples c); [reflexivity | simpl in Hcount; nia].
        -- exfalso. eapply (@pcm_slice_loop_no_return z L c); try eassumption; lia.
Qed.

Lemma pcm_split_oversized_total (k z : Z) (fuel : nat) :
  1 <= z ->
  forall (final_chunks processed : list pcm),
    Forall (whole_ms k) final_chunks ->
    Forall (fun c => frame_count c < Z.of_nat fuel) final_chunks ->
    exists out, pcm_split_oversized z fuel final_chunks processed = Returned out.
Proof.
  intros Hz. induction final_chunks as [|c rest IH]; intros processed Hall Hfuel; simpl.
  - exists processed. reflexivity.
  - inversion Hall as [|? ? Hc Hrest]; subst.
    inversion Hfuel as [|? ? Hcf Hrestf]; subst.
    destruct Hc as (Hk & L & HL & Hcount & Hexact).
    rewrite HL. cbn [bind].
    destruct (L <=? z); [apply IH; assumption|].
    destruct (@pcm_slice_loop_whole k L c Hk HL Hcount Hexact z Hz fuel 0 processed)
      as [[_ Hf]|(ps & Hret & _)]; [lia | unfold frame_count in *; nia |].
    rewrite Hret. cbn [bind]. apply IH; assumption.
Qed.

Lemma samples_in_concat (l : list pcm) (c : pcm) :
  In c l -> frame_count c <= Z.of_nat (length (concat (map samples l))).
Proof.
  unfold frame_count.
  induction l as [|x l IH]; simpl; intros H; [contradiction|].
  rewrite length_app. destruct H as [->|H]; [lia|]. apply IH in H. lia.
Qed.

(** C5 (as the code has it).  For Phase-A chunks held at a whole number [k]
    of frames per millisecond, a whole number of milliseconds long, on which
    the conversion of milliseconds into frames is exact (16 kHz audio cut at
    millisecond positions is the case in point), the split is lossless: what
    Phase B returns consists of one group of pieces per chunk, in chunk order,
    each piece at the frame rate of its chunk, and the samples of the pieces
    of a group, put end to end in order, are the samples of the chunk.
    Phase B does return when [int(max_chunk_s * 1000)] is defined and at least
    one. *)
Theorem C5_split_lossless (cfg : float_config) (k : Z) (final_chunks : list pcm) :
  Forall (whole_ms k) final_chunks ->
  (forall z, f_max_ms cfg = Returned z -> 1 <= z ->
             exists fuel out, pcm_phase_b cfg fuel final_chunks = Returned out)
  /\
  (forall fuel out,
      pcm_phase_b cfg fuel final_chunks = Returned out ->
      exists pss,
        out = concat pss /\
        Forall2 (fun c ps => concat (map samples ps) = samples c /\
                             Forall (fun p => frame_rate p = frame_rate c) ps)
                final_chunks pss).
Proof.
  intros Hall. split.
  - intros z Hz Hstep. unfold pcm_phase_b. rewrite Hz. cbn [bind].
    exists (S (length (concat (map samples final_chunks)))).
    apply (@pcm_split_oversized_total k z _ Hstep final_chunks [] Hall).
    apply Forall_forall. intros c Hin. apply samples_in_concat in Hin. lia.
  - intros fuel out H. unfold pcm_phase_b in H.
    destruct (f_max_ms cfg) as [z| |]; cbn [bind] in H; try discriminate.
    destruct (@pcm_split_oversized_sound k z fuel final_chunks [] out Hall H)
      as (pss & -> & Hsp).
    exists pss. split; [reflexivity | exact Hsp].
Qed.

Lemma C5_split_lossless_witness :
  exists pss,
    [pcm_tone 16000 1 32; pcm_tone 16000 1 16] = concat pss /\
    Forall2 (fun c ps => concat (map samples ps) = samples c /\
                         Forall (fun p => frame_rate p = frame_rate c) ps)
            [pcm_tone 16000 1 48] pss.
Proof.
  refine (proj2 (@C5_split_lossless {| f_min_chunk_s := 3; f_max_chunk_s := 0.002 |}
                   16 [pcm_tone 16000 1 48] _) 4%nat _ _).
  - constructor; [|constructor]. split; [lia|]. exists 3.
    split; [vm_compute; reflexivity|]. split; [reflexivity|].
    intros ms Hms.
    assert (Hcases : ms = 0 \/ ms = 1 \/ ms = 2 \/ ms = 3) by lia.
    destruct Hcases as [->|[->|[->| ->]]]; vm_compute; reflexivity.
  - vm_compute. reflexivity.
Defined.

Lemma frames_of_concat (ps : list pcm) :
  Z.of_nat (length (concat (map samples ps)))
  = fold_right Z.add 0 (map frame_count ps).
Proof.
  unfold frame_count. induction ps as [|p ps IH]; simpl; [reflexivity|].
  rewrite length_app. lia.
Qed.

(** At 44.1 kHz a chunk of 802973 frames is 18208 ms long for pydub.  With
    [max_chunk_s = 8.0] its pieces hold 352800, 352800 and 97372 frames, one
    frame less than the chunk: the pieces put end to end are not the chunk. *)
Lemma C5_counterexample :
  let c := pcm_tone 44100 1 802973 in
  frame_count c = 802973 /\
  pcm_len c = Returned 18208 /\
  frame_counts (pcm_phase_b f_default_config 4 [c])
  = Returned [352800; 352800; 97372] /\
  forall pieces,
    pcm_phase_b f_default_config 4 [c] = Returned pieces ->
    concat (map samples pieces) <> samples c.
Proof.
  cbv zeta.
  assert (Hc : frame_count (pcm_tone 44100 1 802973) = 802973)
    by (vm_compute; reflexivity).
  assert (Hrun : frame_counts (pcm_phase_b f_default_config 4
                                 [pcm_tone 44100 1 802973])
                 = Returned [352800; 352800; 97372])
    by (vm_compute; reflexivity).
  split; [exact Hc|]. split; [vm_compute; reflexivity|]. split; [exact Hrun|].
  intros pieces H Heq. rewrite H in Hrun. unfold frame_counts in Hrun.
  cbn [bind] in Hrun. injection Hrun as Hcounts.
  apply (f_equal (fun l => Z.of_nat (length l))) in Heq.
  rewrite frames_of_concat, Hcounts in Heq.
  change (Z.of_nat (length (samples (pcm_tone 44100 1 802973))))
    with (frame_count (pcm_tone 44100 1 802973)) in Heq.
  rewrite Hc in Heq. vm_compute in Heq. discriminate.
Qed.
